(** * The [scroll] directive of the virtualizer: a shallow embedding

    The development follows [ScrollDirective] (the window renderer built on
    lit's [AsyncDirective]): its constructor, [render], [update],
    [_initialize] and the [rangeChanged] listener.  JavaScript values are a
    small tagged union, the instance fields are a record threaded through a
    state-and-trace monad, and everything the directive does to its
    collaborators (the engine, the container, the microtask queue, the host
    part) is recorded as an effect in the trace. *)

From Equations Require Import Equations.
From stdpp Require Import base numbers option list gmap strings.

Local Open Scope Z_scope.

(** ** JavaScript values *)

(** The values an [any]-typed slot can hold.  Objects are opaque and
    compared by reference; numbers are the integers (indices and counts). *)
Inductive JsValue : Type :=
| JsUndefined
| JsNull
| JsBool (b : bool)
| JsNumber (z : Z)
| JsString (s : string)
| JsObject (ref : nat).

Global Instance JsValue_eq_dec : EqDecision JsValue.
Proof. solve_decision. Defined.

(** ToBoolean, as used by [||], [&&] and [if]. *)
Definition truthy (v : JsValue) : bool :=
  match v with
  | JsUndefined | JsNull => false
  | JsBool b => b
  | JsNumber z => negb (z =? 0)
  | JsString s => negb (String.length s =? 0)%nat
  | JsObject _ => true
  end.

(** [a || b] on values. *)
Definition js_or (a b : JsValue) : JsValue := if truthy a then a else b.

(** [a || b] where [a] is an optional [number] and [b] a number:
    [undefined] and [0] are both falsy. *)
Definition number_or (a : option Z) (b : Z) : Z :=
  match a with
  | Some n => if n =? 0 then b else n
  | None => b
  end.

(** [items[i]]: the element at an index in range, [undefined] elsewhere. *)
Definition js_index (items : list JsValue) (i : Z) : JsValue :=
  if decide (0 ≤ i) then default JsUndefined (items !! Z.to_nat i)
  else JsUndefined.

(** [export const defaultKeyFunction = (item: any) => item;] *)
Definition defaultKeyFunction (item : JsValue) : JsValue := item.

(** ** DOM and parts *)

(** A DOM node: an identity and its [nodeType] (1 is an element). *)
Record Node : Type := mkNode { node_id : nat; nodeType : Z }.

Global Instance Node_eq_dec : EqDecision Node.
Proof. solve_decision. Defined.

(** [scrollTarget?: Element | Window]. *)
Inductive ScrollTarget : Type :=
| TargetElement (e : Node)
| TargetWindow.

(** Modelled from the spec: the part types of lit's directive module, which
    is not among the sources.  The spec only separates a child-content
    insertion context from every other one; the enumeration lists lit's six
    kinds so that [part.type !== PartType.CHILD] reads as written. *)
Inductive PartType : Type :=
| ATTRIBUTE | CHILD | PROPERTY | BOOLEAN_ATTRIBUTE | EVENT | ELEMENT.

Global Instance PartType_eq_dec : EqDecision PartType.
Proof. solve_decision. Defined.

(** [PartInfo]: what the constructor inspects. *)
Record PartInfo : Type := mkPartInfo { part_type : PartType }.

(** A [ChildPart] is known by its identity; its [parentNode] is read from
    the document each time it is asked for. *)
Record ChildPart : Type := mkChildPart { part_id : nat }.

(** The document as the directive sees it: the current [parentNode] of each
    child part ([None] is [null]). *)
Abbreviation Document := (gmap nat Node).

Definition parentNode (doc : Document) (part : ChildPart) : option Node :=
  doc !! part_id part.

(** ** The keyed-list primitive *)

(** Modelled from the spec: [repeat(items, keyFn, renderFn)] of lit's
    directives, which is not among the sources.  It yields the keyed
    sequence, an ordered list of (key, render output) pairs, one per element
    of the list it is given, in order.  The key function is called with the
    element, the render function with the element and an index; the list is
    all [repeat] receives, so the index is the element's position in it. *)
Fixpoint repeat_from {T : Type} (index : Z) (items : list JsValue)
    (keyFn : JsValue → JsValue) (template : JsValue → Z → T)
    : list (JsValue * T) :=
  match items with
  | [] => []
  | item :: rest =>
      (keyFn item, template item index)
        :: repeat_from (index + 1) rest keyFn template
  end.

Definition repeat {T : Type} (items : list JsValue)
    (keyFn : JsValue → JsValue) (template : JsValue → Z → T)
    : list (JsValue * T) :=
  repeat_from 0 items keyFn template.

(** ** The loop of [render] *)

(** [for (let i = first; i < last + 1; i++) itemsToRender.push(items[i])],
    entered with the loop variable at [i] and the array built so far. *)
Equations? for_push (items : list JsValue) (last i : Z)
    (itemsToRender : list JsValue) : list JsValue
    by wf (Z.to_nat (last + 1 - i)) lt :=
  for_push items last i itemsToRender with decide (i < last + 1) := {
    | left _ => for_push items last (i + 1)
                  (itemsToRender ++ [js_index items i]);
    | right _ => itemsToRender }.
Proof. lia. Qed.

(** ** The directive *)

Section Directive.

(** What a render function returns.  lit's [html] tag and [JSON.stringify]
    are outside the sources, so the template type and the template that
    [defaultRenderItem] builds from an item are taken as given. *)
Context {TemplateResult : Type}.
Context (html_stringify : JsValue → TemplateResult).

(** [export const defaultRenderItem = (item: any) =>
    html`${JSON.stringify(item, null, 2)}`;] (the index it is passed is
    ignored). *)
Definition defaultRenderItem (item : JsValue) (_ : Z) : TemplateResult :=
  html_stringify item.

(** [interface ScrollConfig]: every field is optional.  [layout] and
    [scrollToIndex] have types declared by the engine; they are opaque here
    and carried as values, [JsUndefined] when the field is omitted. *)
Record ScrollConfig : Type := mkScrollConfig {
  cfg_renderItem : option (JsValue → Z → TemplateResult);
  cfg_keyFunction : option (JsValue → JsValue);
  cfg_layout : JsValue;
  cfg_scrollTarget : option ScrollTarget;
  cfg_items : option (list JsValue);
  cfg_totalItems : option Z;
  cfg_scrollToIndex : JsValue
}.

(** The fields of the engine ([VirtualScroller]) that the directive assigns,
    and the container it was constructed with. *)
Record VirtualScroller : Type := mkVirtualScroller {
  vs_container : Node;
  vs_items : list JsValue;
  vs_totalItems : Z;
  vs_layout : JsValue;
  vs_scrollTarget : option ScrollTarget;
  vs_scrollToIndex : JsValue
}.

(** The engine's constructor is outside the sources: the state of a freshly
    constructed engine is taken as given, except for its container. *)
Context (engine_defaults : VirtualScroller).

Definition new_VirtualScroller (container : Node) : VirtualScroller :=
  {| vs_container := container;
     vs_items := vs_items engine_defaults;
     vs_totalItems := vs_totalItems engine_defaults;
     vs_layout := vs_layout engine_defaults;
     vs_scrollTarget := vs_scrollTarget engine_defaults;
     vs_scrollToIndex := vs_scrollToIndex engine_defaults |}.

(** What [update] and [render] hand back to lit: the [nothing] sentinel or
    the keyed sequence built by [repeat]. *)
Inductive RenderOutput : Type :=
| nothing
| keyed (entries : list (JsValue * TemplateResult)).

(** The instance fields of [ScrollDirective]. *)
Record ScrollDirective : Type := mkScrollDirective {
  container : option Node;
  scroller : option VirtualScroller;
  first : Z;
  last : Z;
  renderItem : JsValue → Z → TemplateResult;
  keyFunction : JsValue → JsValue;
  items : list JsValue
}.

(** Everything a method does outside the instance, in program order. *)
Inductive Effect : Type :=
| NewVirtualScroller (c : Node)
| AddRangeChangedListener (c : Node)
| WriteItems (v : list JsValue)
| WriteTotalItems (v : Z)
| WriteLayout (v : JsValue)
| WriteScrollTarget (v : option ScrollTarget)
| WriteScrollToIndex (v : JsValue)
| ScheduleMicrotask (part : ChildPart) (config : ScrollConfig)
| SetValue (out : RenderOutput).

(** *** Methods: a state monad over the instance that also logs effects *)

Definition Method (A : Type) : Type :=
  ScrollDirective → A * ScrollDirective * list Effect.

Global Instance Method_ret : MRet Method := λ A a this, (a, this, []).

Global Instance Method_bind : MBind Method := λ A B k m this,
  let '(a, this1, log1) := m this in
  let '(b, this2, log2) := k a this1 in
  (b, this2, log1 ++ log2).

Definition get_this : Method ScrollDirective := λ this, (this, this, []).
Definition set_this (this' : ScrollDirective) : Method unit :=
  λ _, (tt, this', []).
Definition modify (f : ScrollDirective → ScrollDirective) : Method unit :=
  λ this, (tt, f this, []).
Definition emit (e : Effect) : Method unit := λ this, (tt, this, [e]).

(** Field assignments. *)
Definition with_container (c : option Node) (d : ScrollDirective) :=
  mkScrollDirective c (scroller d) (first d) (last d) (renderItem d)
    (keyFunction d) (items d).
Definition with_scroller (s : option VirtualScroller) (d : ScrollDirective) :=
  mkScrollDirective (container d) s (first d) (last d) (renderItem d)
    (keyFunction d) (items d).
Definition with_first (f : Z) (d : ScrollDirective) :=
  mkScrollDirective (container d) (scroller d) f (last d) (renderItem d)
    (keyFunction d) (items d).
Definition with_last (l : Z) (d : ScrollDirective) :=
  mkScrollDirective (container d) (scroller d) (first d) l (renderItem d)
    (keyFunction d) (items d).
Definition with_functions (r : JsValue → Z → TemplateResult)
    (k : JsValue → JsValue) (d : ScrollDirective) :=
  mkScrollDirective (container d) (scroller d) (first d) (last d) r k
    (items d).
Definition with_items (v : list JsValue) (d : ScrollDirective) :=
  mkScrollDirective (container d) (scroller d) (first d) (last d)
    (renderItem d) (keyFunction d) v.

(** *** The constructor *)

(** The field initialisers: no container, no engine, the range [(0, -1)],
    the default functions, no items. *)
Definition initial : ScrollDirective :=
  {| container := None;
     scroller := None;
     first := 0;
     last := -1;
     renderItem := defaultRenderItem;
     keyFunction := defaultKeyFunction;
     items := [] |}.

(** [constructor(part: PartInfo)]: the thrown [Error] carries its message. *)
Definition constructor (part : PartInfo) : string + ScrollDirective :=
  if decide (part_type part ≠ CHILD)
  then inl "The scroll directive can only be used in child expressions"%string
  else inr initial.

(** *** render *)

(** The array [itemsToRender] that [render] builds from the stored range. *)
Definition itemsToRender (this : ScrollDirective) : list JsValue :=
  if (first this >=? 0) && (last this >=? first this)
  then for_push (items this) (last this) (first this) []
  else [].

(** [render(config?: ScrollConfig)].  A configuration that is passed is an
    object, hence truthy; so is the stored key function, which makes
    [this.keyFunction || defaultKeyFunction] the stored function. *)
Definition render (config : option ScrollConfig) : Method RenderOutput :=
  this ← get_this;
  match config with
  | Some config =>
      set_this (with_functions
                  (default (renderItem this) (cfg_renderItem config))
                  (default (keyFunction this) (cfg_keyFunction config))
                  this)
  | None => mret tt
  end;;
  this ← get_this;
  mret (keyed (repeat (itemsToRender this) (keyFunction this)
                 (renderItem this))).

(** *** The range listener *)

(** The handler that [_initialize] registers for [rangeChanged], called with
    the [first] and [last] of the event's detail. *)
Definition rangeChanged_listener (detail_first detail_last : Z)
    : Method unit :=
  modify (with_first detail_first);;
  modify (with_last detail_last);;
  out ← render None;
  emit (SetValue out).

(** *** _initialize *)

(** [private _initialize(part: ChildPart, config: ScrollConfig)]. *)
Definition _initialize (doc : Document) (part : ChildPart)
    (config : ScrollConfig) : Method bool :=
  let container := parentNode doc part in
  let retry := emit (ScheduleMicrotask part config);; mret false in
  modify (with_container container);;
  match container with
  | Some c =>
      if nodeType c =? 1 then
        emit (NewVirtualScroller c);;
        modify (with_scroller (Some (new_VirtualScroller c)));;
        emit (AddRangeChangedListener c);;
        mret true
      else retry
  | None => retry
  end.

(** *** update *)

(** An assignment to a field of the engine held in [this.scroller]: the
    shared object changes and the write is logged. *)
Definition write_scroller (f : VirtualScroller → VirtualScroller)
    (e : Effect) : Method unit :=
  modify (λ this, with_scroller (f <$> scroller this) this);;
  emit e.

Definition set_vs_items (v : list JsValue) (s : VirtualScroller) :=
  mkVirtualScroller (vs_container s) v (vs_totalItems s) (vs_layout s)
    (vs_scrollTarget s) (vs_scrollToIndex s).
Definition set_vs_totalItems (v : Z) (s : VirtualScroller) :=
  mkVirtualScroller (vs_container s) (vs_items s) v (vs_layout s)
    (vs_scrollTarget s) (vs_scrollToIndex s).
Definition set_vs_layout (v : JsValue) (s : VirtualScroller) :=
  mkVirtualScroller (vs_container s) (vs_items s) (vs_totalItems s) v
    (vs_scrollTarget s) (vs_scrollToIndex s).
Definition set_vs_scrollTarget (v : option ScrollTarget)
    (s : VirtualScroller) :=
  mkVirtualScroller (vs_container s) (vs_items s) (vs_totalItems s)
    (vs_layout s) v (vs_scrollToIndex s).
Definition set_vs_scrollToIndex (v : JsValue) (s : VirtualScroller) :=
  mkVirtualScroller (vs_container s) (vs_items s) (vs_totalItems s)
    (vs_layout s) (vs_scrollTarget s) v.

(** [config.totalItems || config.items?.length || 0]. *)
Definition totalItems_of (config : ScrollConfig) : Z :=
  number_or (cfg_totalItems config)
    (number_or ((λ l, Z.of_nat (length l)) <$> cfg_items config) 0).

(** [config.scrollTarget || this.container]. *)
Definition scrollTarget_of (config : ScrollConfig) (this : ScrollDirective)
    : option ScrollTarget :=
  match cfg_scrollTarget config with
  | Some t => Some t
  | None => TargetElement <$> container this
  end.

(** The body of the [if] in [update]: push the configuration to the engine,
    then render. *)
Definition apply_config (config : ScrollConfig) : Method RenderOutput :=
  let new_items := default [] (cfg_items config) in
  write_scroller (set_vs_items new_items) (WriteItems new_items);;
  modify (with_items new_items);;
  write_scroller (set_vs_totalItems (totalItems_of config))
    (WriteTotalItems (totalItems_of config));;
  write_scroller (set_vs_layout (js_or (cfg_layout config) JsNull))
    (WriteLayout (js_or (cfg_layout config) JsNull));;
  this ← get_this;
  write_scroller (set_vs_scrollTarget (scrollTarget_of config this))
    (WriteScrollTarget (scrollTarget_of config this));;
  (if truthy (cfg_scrollToIndex config)
   then write_scroller (set_vs_scrollToIndex (cfg_scrollToIndex config))
          (WriteScrollToIndex (cfg_scrollToIndex config))
   else mret tt);;
  render (Some config).

(** [update(part: ChildPart, [config]: [ScrollConfig])]. *)
Definition update (doc : Document) (part : ChildPart) (config : ScrollConfig)
    : Method RenderOutput :=
  this ← get_this;
  bound ← match scroller this with
          | Some _ => mret true
          | None => _initialize doc part config
          end;
  if bound : bool then apply_config config else mret nothing.

(** ** The directive in its environment *)

(** The instance together with what surrounds it: the document, the queue of
    microtasks it has scheduled and not yet run, and the log of every effect
    so far. *)
Record World : Type := mkWorld {
  self : ScrollDirective;
  document : Document;
  microtasks : list (ChildPart * ScrollConfig);
  trace : list Effect
}.

(** The retries a method call has put on the microtask queue. *)
Definition scheduled (log : list Effect) : list (ChildPart * ScrollConfig) :=
  omap (λ e, match e with
             | ScheduleMicrotask part config => Some (part, config)
             | _ => None
             end) log.

Definition is_NewVirtualScroller (e : Effect) : bool :=
  match e with NewVirtualScroller _ => true | _ => false end.

Definition is_AddRangeChangedListener (e : Effect) : bool :=
  match e with AddRangeChangedListener _ => true | _ => false end.

Definition is_ScheduleMicrotask (e : Effect) : bool :=
  match e with ScheduleMicrotask _ _ => true | _ => false end.

Definition is_WriteScrollToIndex (e : Effect) : bool :=
  match e with WriteScrollToIndex _ => true | _ => false end.

Definition listens_on (target : Node) (e : Effect) : bool :=
  match e with
  | AddRangeChangedListener c => bool_decide (c = target)
  | _ => false
  end.

(** How many effects of a kind a log holds. *)
Definition count (p : Effect → bool) (log : list Effect) : nat :=
  length (filter (λ e, p e = true) log).

(** Run one method call on the instance of a world: the instance changes,
    the log grows, scheduled retries join the queue. *)
Definition call {A : Type} (m : Method A) (w : World) : A * World :=
  let '(a, this', log) := m (self w) in
  (a, {| self := this';
         document := document w;
         microtasks := microtasks w ++ scheduled log;
         trace := trace w ++ log |}).

(** What can happen to the directive: the host calls [update]; the next
    microtask runs; a [rangeChanged] event with detail [{first, last}]
    reaches a node, dispatched on it or bubbling up to it from a descendant,
    and the listeners registered on that node run; the document changes.
    Execution is single-threaded: each happens on its own, between method
    calls. *)
Inductive Event : Type :=
| HostUpdate (part : ChildPart) (config : ScrollConfig)
| MicrotaskTurn
| RangeChanged (target : Node) (detail_first detail_last : Z)
| DocumentChange (doc : Document).

Definition step (w : World) (ev : Event) : World :=
  match ev with
  | HostUpdate part config =>
      (call (update (document w) part config) w).2
  | MicrotaskTurn =>
      match microtasks w with
      | [] => w
      | (part, config) :: rest =>
          (call (update (document w) part config)
             {| self := self w; document := document w;
                microtasks := rest; trace := trace w |}).2
      end
  | RangeChanged target f l =>
      Nat.iter (count (listens_on target) (trace w))
        (λ w, (call (rangeChanged_listener f l) w).2) w
  | DocumentChange doc =>
      {| self := self w; document := doc;
         microtasks := microtasks w; trace := trace w |}
  end.

Definition run (w : World) (evs : list Event) : World :=
  foldl step w evs.

(** A freshly constructed instance in a document, nothing done yet. *)
Definition fresh (doc : Document) : World :=
  {| self := initial; document := doc; microtasks := []; trace := [] |}.

End Directive.

Arguments ScrollConfig : clear implicits.
Arguments RenderOutput : clear implicits.
Arguments ScrollDirective : clear implicits.
Arguments Effect : clear implicits.
Arguments Method : clear implicits.
Arguments World : clear implicits.
Arguments Event : clear implicits.

(** The entries of a render output ([nothing] has none) and their keys. *)
Definition entries_of {T : Type} (out : RenderOutput T)
    : list (JsValue * T) :=
  match out with
  | nothing => []
  | keyed entries => entries
  end.

Definition keys_of {T : Type} (out : RenderOutput T) : list JsValue :=
  (entries_of out).*1.

(** ** The projection as the specification words it *)

(** The keyed sequence the specification describes for a stored range:
    empty when [last < first], otherwise one entry per index of
    [first..last] in ascending order, entry [i] keyed by
    [keyFunction(items[i])] and rendered by [renderItem(items[i], i)]. *)
Definition spec_projection {T : Type} (this : ScrollDirective T)
    : list (JsValue * T) :=
  if decide (last this < first this) then []
  else (λ i, (keyFunction this (js_index (items this) i),
              renderItem this (js_index (items this) i) i))
         <$> seqZ (first this) (last this - first this + 1).

(** The [totalItems] the specification describes: the explicit value if
    provided, else the length of [items], else [0]. *)
Definition spec_totalItems {T : Type} (config : ScrollConfig T) : Z :=
  match cfg_totalItems config, cfg_items config with
  | Some n, _ => n
  | None, Some l => Z.of_nat (length l)
  | None, None => 0
  end.

(** [render] with some other keyed-list primitive in the place of [repeat]:
    whatever the primitive is, it is handed the window's items and the two
    stored functions, nothing else. *)
Definition render_via {T : Type}
    (primitive : list JsValue → (JsValue → JsValue) → (JsValue → Z → T)
                 → list (JsValue * T))
    (this : ScrollDirective T) : list (JsValue * T) :=
  primitive (itemsToRender this) (keyFunction this) (renderItem this).

(** ** The projection as the code computes it *)

(** One entry per index of [first..last] when [0 <= first <= last], none
    otherwise; the render function receives the entry's position in the
    window, [i - first]. *)
Definition window_projection {T : Type} (this : ScrollDirective T)
    : list (JsValue * T) :=
  if decide (first this < 0 ∨ last this < first this) then []
  else (λ i, (keyFunction this (js_index (items this) i),
              renderItem this (js_index (items this) i) (i - first this)))
         <$> seqZ (first this) (last this - first this + 1).

(** The instance after [render] has taken the functions of a configuration:
    [config.renderItem || this.renderItem] and the same for the key
    function. *)
Definition configured {T : Type} (config : option (ScrollConfig T))
    (this : ScrollDirective T) : ScrollDirective T :=
  match config with
  | Some config =>
      with_functions (default (renderItem this) (cfg_renderItem config))
        (default (keyFunction this) (cfg_keyFunction config)) this
  | None => this
  end.

(** Whether [_initialize] can bind at a part: its parent is there and is an
    element. *)
Definition bindable (doc : Document) (part : ChildPart) : bool :=
  match parentNode doc part with
  | Some c => nodeType c =? 1
  | None => false
  end.

(** What [apply_config] assigns to the engine, field by field, and the log
    of those writes. *)
Definition pushed {T : Type} (config : ScrollConfig T)
    (this : ScrollDirective T) (s : VirtualScroller) : VirtualScroller :=
  {| vs_container := vs_container s;
     vs_items := default [] (cfg_items config);
     vs_totalItems := totalItems_of config;
     vs_layout := js_or (cfg_layout config) JsNull;
     vs_scrollTarget := scrollTarget_of config this;
     vs_scrollToIndex :=
       if truthy (cfg_scrollToIndex config) then cfg_scrollToIndex config
       else vs_scrollToIndex s |}.

Definition writes {T : Type} (config : ScrollConfig T)
    (this : ScrollDirective T) : list (Effect T) :=
  [WriteItems (default [] (cfg_items config));
   WriteTotalItems (totalItems_of config);
   WriteLayout (js_or (cfg_layout config) JsNull);
   WriteScrollTarget (scrollTarget_of config this)]
  ++ (if truthy (cfg_scrollToIndex config)
      then [WriteScrollToIndex (cfg_scrollToIndex config)] else []).

Definition is_RangeChanged {T : Type} (ev : Event T) : bool :=
  match ev with RangeChanged _ _ _ => true | _ => false end.

(** The engine has been constructed at most once and the listener registered
    at most once, and neither has happened while the instance holds no
    engine. *)
Definition engine_once {T : Type} (w : World T) : Prop :=
  (count is_NewVirtualScroller (trace w) ≤ 1)%nat
  ∧ (count is_AddRangeChangedListener (trace w) ≤ 1)%nat
  ∧ (scroller (self w) = None →
     count is_NewVirtualScroller (trace w) = 0%nat
     ∧ count is_AddRangeChangedListener (trace w) = 0%nat).

(** The stored range is still the one the field initialisers gave. *)
Definition range_initial {T : Type} (w : World T) : Prop :=
  first (self w) = 0 ∧ last (self w) = -1.

(** ** Sample data *)

Module Sample.

(** Render functions that record what they were called with. *)
Definition T : Type := JsValue * Z.
Definition html_stringify (item : JsValue) : T := (item, -1).
Definition echo (item : JsValue) (index : Z) : T := (item, index).

Definition a := JsString "a".
Definition b := JsString "b".
Definition c := JsString "c".
Definition d := JsString "d".
Definition e := JsString "e".

Definition div : Node := {| node_id := 7; nodeType := 1 |}.
Definition fragment : Node := {| node_id := 8; nodeType := 11 |}.
Definition part : ChildPart := {| part_id := 0 |}.

Definition engine_defaults : VirtualScroller :=
  {| vs_container := div; vs_items := []; vs_totalItems := 0;
     vs_layout := JsNull; vs_scrollTarget := None;
     vs_scrollToIndex := JsNull |}.

(** [{items: [a, b, c, d, e], totalItems: 5, renderItem}]. *)
Definition five : ScrollConfig T :=
  {| cfg_renderItem := Some echo; cfg_keyFunction := None;
     cfg_layout := JsUndefined; cfg_scrollTarget := None;
     cfg_items := Some [a; b; c; d; e]; cfg_totalItems := Some 5;
     cfg_scrollToIndex := JsUndefined |}.

(** [{items: [a], totalItems: 0}]. *)
Definition zero_total : ScrollConfig T :=
  {| cfg_renderItem := None; cfg_keyFunction := None;
     cfg_layout := JsUndefined; cfg_scrollTarget := None;
     cfg_items := Some [a]; cfg_totalItems := Some 0;
     cfg_scrollToIndex := JsUndefined |}.

(** [{items: [a, b, c, d, e], scrollToIndex: {index: 3}}], the target
    being some object. *)
Definition with_target : ScrollConfig T :=
  {| cfg_renderItem := Some echo; cfg_keyFunction := None;
     cfg_layout := JsUndefined; cfg_scrollTarget := None;
     cfg_items := Some [a; b; c; d; e]; cfg_totalItems := None;
     cfg_scrollToIndex := JsObject 3 |}.

(** An instance holding [a..e] with the stored range [(f, l)]. *)
Definition showing (f l : Z) : ScrollDirective T :=
  {| container := Some div;
     scroller := Some (new_VirtualScroller engine_defaults div);
     first := f; last := l;
     renderItem := echo; keyFunction := defaultKeyFunction;
     items := [a; b; c; d; e] |}.

(** A document in which the part sits under an element, and one in which it
    sits under a document fragment. *)
Definition attached : Document := {[ 0%nat := div ]}.
Definition detached : Document := {[ 0%nat := fragment ]}.

(** The world after one [update] with [five] at the attached part: bound,
    one listener on [div]. *)
Definition bound_world : World T :=
  run engine_defaults (fresh html_stringify attached) [HostUpdate part five].

End Sample.

(** ** The directive once it is wired to its container *)

(** How the instance, its engine and the listeners on the page hang together
    between two events: without an engine there is no listener; with one,
    the stored container is the engine's, it is an element, the engine holds
    the instance's items, and the one listener is on that container. *)
Definition wired {T : Type} (w : World T) : Prop :=
  match scroller (self w) with
  | None => ∀ c, count (listens_on c) (trace w) = 0%nat
  | Some s =>
      container (self w) = Some (vs_container s)
      ∧ nodeType (vs_container s) = 1
      ∧ vs_items s = items (self w)
      ∧ ∀ c, count (listens_on c) (trace w)
             = if bool_decide (c = vs_container s) then 1%nat else 0%nat
  end.

Module Scenario.

(** [{}]: every field omitted. *)
Definition empty_config : ScrollConfig Sample.T :=
  {| cfg_renderItem := None; cfg_keyFunction := None;
     cfg_layout := JsUndefined; cfg_scrollTarget := None;
     cfg_items := None; cfg_totalItems := None;
     cfg_scrollToIndex := JsUndefined |}.

(** [{items: [e], scrollTarget: window, layout: someLayout}]. *)
Definition other_config : ScrollConfig Sample.T :=
  {| cfg_renderItem := None; cfg_keyFunction := None;
     cfg_layout := JsObject 9; cfg_scrollTarget := Some TargetWindow;
     cfg_items := Some [Sample.e]; cfg_totalItems := None;
     cfg_scrollToIndex := JsUndefined |}.

(** The world after an [update] with [five] at a part that is not bindable:
    one retry is pending. *)
Definition waiting : World Sample.T :=
  step Sample.engine_defaults
    (fresh Sample.html_stringify Sample.detached)
    (HostUpdate Sample.part Sample.five).

(** The same world after the part got attached and the host called [update]
    with [other_config]: bound, the retry with [five] still pending. *)
Definition overtaken : World Sample.T :=
  run Sample.engine_defaults waiting
    [DocumentChange Sample.attached;
     HostUpdate Sample.part other_config].

(** The engine as the directive leaves it after an [update] with [five],
    and after a further one with [empty_config]. *)
Definition engine_five : VirtualScroller :=
  {| vs_container := Sample.div;
     vs_items := [Sample.a; Sample.b; Sample.c; Sample.d; Sample.e];
     vs_totalItems := 5; vs_layout := JsNull;
     vs_scrollTarget := Some (TargetElement Sample.div);
     vs_scrollToIndex := JsNull |}.

Definition engine_empty : VirtualScroller :=
  {| vs_container := Sample.div; vs_items := []; vs_totalItems := 0;
     vs_layout := JsNull;
     vs_scrollTarget := Some (TargetElement Sample.div);
     vs_scrollToIndex := JsNull |}.

End Scenario.

(** * The React wrapper for custom elements ([createComponent]) *)

Module CreateComponent.

Local Open Scope string_scope.
Local Open Scope list_scope.

(** ** Values *)

(** A prop value: a function, known by its identity, or any other value.
    [typeof v === 'function'] is the first case. *)
Inductive Value : Type :=
| Data (v : JsValue)
| Function (id : nat).

Global Instance Value_eq_dec : EqDecision Value.
Proof. solve_decision. Defined.

Definition undefined : Value := Data JsUndefined.
Definition null : Value := Data JsNull.

(** An object as its entries, in the order [Object.entries] and [for..in]
    give them; keys are strings. *)
Abbreviation Obj := (list (string * Value)).

(** [o[k]]: the value of the first entry with that key, [undefined] when
    there is none. *)
Fixpoint prop_get (o : Obj) (k : string) : Value :=
  match o with
  | [] => undefined
  | (k', v) :: rest => if decide (k' = k) then v else prop_get rest k
  end.

(** [o[k] = v]: an existing key keeps its place, a new one goes last. *)
Fixpoint prop_set (o : Obj) (k : string) (v : Value) : Obj :=
  match o with
  | [] => [(k, v)]
  | (k', v') :: rest =>
      if decide (k' = k) then (k, v) :: rest
      else (k', v') :: prop_set rest k v
  end.

(** [const reservedReactProperties = new Set([...])]. *)
Definition reservedReactProperties : gset string :=
  list_to_set ["children"; "localName"; "ref"; "style"; "className"].

(** ** The page: listeners and element properties *)

(** The state the module reaches on the page.  [listenedEvents] is the
    module's [WeakMap] from an element to its [Map] from event name to
    [EventListenerObject]; those objects are known by reference and
    [handlerObjects] holds the [handleEvent] field of each;
    [eventListeners] is each element's own list of registered listeners,
    in registration order; [elementProperties] holds what has been assigned
    to [node[name]]. *)
Record Page : Type := mkPage {
  listenedEvents : gmap nat (gmap string nat);
  handlerObjects : gmap nat Value;
  eventListeners : gmap nat (list (string * nat));
  elementProperties : gmap nat (gmap string Value)
}.

Definition empty_page : Page :=
  {| listenedEvents := ∅; handlerObjects := ∅; eventListeners := ∅;
     elementProperties := ∅ |}.

(** [node.addEventListener(event, handler)] for a handler that is not yet
    registered: it goes to the end of the element's list. *)
Definition dom_addEventListener (node : nat) (event : string) (handler : nat)
    (l : gmap nat (list (string * nat))) : gmap nat (list (string * nat)) :=
  <[node := default [] (l !! node) ++ [(event, handler)]]> l.

(** [node.removeEventListener(event, handler)]. *)
Definition dom_removeEventListener (node : nat) (event : string)
    (handler : nat) (l : gmap nat (list (string * nat)))
    : gmap nat (list (string * nat)) :=
  <[node := filter (λ eh, eh ≠ (event, handler)) (default [] (l !! node))]> l.

(** [addOrUpdateEventListener(node, event, listener)]. *)
Definition addOrUpdateEventListener (node : nat) (event : string)
    (listener : Value) (p : Page) : Page :=
  let events : gmap string nat := default ∅ (listenedEvents p !! node) in
  let listened := <[node := events]> (listenedEvents p) in
  let handler := events !! event in
  if decide (listener ≠ undefined) then
    match handler with
    | None =>
        let handler := stdpp.base.fresh (dom (handlerObjects p)) in
        {| listenedEvents := <[node := <[event := handler]> events]> listened;
           handlerObjects := <[handler := listener]> (handlerObjects p);
           eventListeners :=
             dom_addEventListener node event handler (eventListeners p);
           elementProperties := elementProperties p |}
    | Some handler =>
        {| listenedEvents := listened;
           handlerObjects := <[handler := listener]> (handlerObjects p);
           eventListeners := eventListeners p;
           elementProperties := elementProperties p |}
    end
  else
    match handler with
    | Some handler =>
        {| listenedEvents := <[node := delete event events]> listened;
           handlerObjects := handlerObjects p;
           eventListeners :=
             dom_removeEventListener node event handler (eventListeners p);
           elementProperties := elementProperties p |}
    | None =>
        {| listenedEvents := listened;
           handlerObjects := handlerObjects p;
           eventListeners := eventListeners p;
           elementProperties := elementProperties p |}
    end.

(** [events?.[name]] for the [events] argument of [createComponent], an
    object from prop names to event names, or [undefined].  The lookup is
    among the object's own keys: prop names that are also names of
    [Object.prototype] members are outside the model. *)
Definition event_of (events : option (gmap string string)) (name : string)
    : option string :=
  events ≫= (λ m, m !! name).

(** [setProperty(node, name, value, old, events)]. *)
Definition setProperty (node : nat) (name : string) (value old : Value)
    (events : option (gmap string string)) (p : Page) : Page :=
  match event_of events name with
  | Some event =>
      if decide (value ≠ old)
      then addOrUpdateEventListener node event value p
      else p
  | None =>
      {| listenedEvents := listenedEvents p;
         handlerObjects := handlerObjects p;
         eventListeners := eventListeners p;
         elementProperties :=
           <[node := <[name := value]>
                       (default ∅ (elementProperties p !! node))]>
             (elementProperties p) |}
  end.

(** What the browser calls when [event] fires on [node]: the [handleEvent]
    of every listener object registered for it, in registration order. *)
Definition dispatch (p : Page) (node : nat) (event : string) : list Value :=
  omap (λ eh, if decide (eh.1 = event) then handlerObjects p !! eh.2
              else None)
    (default [] (eventListeners p !! node)).

(** [node[name]] as far as the module has assigned it. *)
Definition property (p : Page) (node : nat) (name : string) : option Value :=
  elementProperties p !! node ≫= (λ m, m !! name).

(** ** Refs *)

(** The user's refs: the [current] field of each ref object, and the calls
    made to ref callbacks, oldest first. *)
Record Refs : Type := mkRefs {
  current : gmap nat (option nat);
  ref_calls : list (nat * option nat)
}.

Definition no_refs : Refs := {| current := ∅; ref_calls := [] |}.

(** [setRef(ref, value)].  The module is strict code: assigning [current]
    on anything that is not an object throws a [TypeError] ([None]). *)
Definition setRef (ref : Value) (value : option nat) (r : Refs)
    : option Refs :=
  match ref with
  | Function id =>
      Some {| current := current r;
              ref_calls := ref_calls r ++ [(id, value)] |}
  | Data (JsObject id) =>
      Some {| current := <[id := value]> (current r);
              ref_calls := ref_calls r |}
  | Data _ => None
  end.

(** ** createComponent *)

(** The text of the [console.warn] for a reserved property. *)
Definition warning (tagName p : string) : string :=
  tagName +:+ " contains property " +:+ p +:+ " which is a React "
  +:+ "reserved property. It will be used by React and not set on "
  +:+ "the element.".

(** One turn of [for (const p in elementClass.prototype)]; the state is the
    set built so far and the warnings given so far.  [HTMLElement_prototype]
    is the set of names [p] with [p in HTMLElement.prototype]. *)
Definition scan_prototype (tagName : string)
    (HTMLElement_prototype : gset string)
    (acc : gset string * list string) (p : string)
    : gset string * list string :=
  if decide (p ∈ HTMLElement_prototype) then acc
  else if decide (p ∈ reservedReactProperties)
       then (acc.1, acc.2 ++ [warning tagName p])
       else ({[ p ]} ∪ acc.1, acc.2).

(** [elementClassProps] as [createComponent] computes it, with the
    warnings: the keys of [events ?? {}], then the enumerable properties of
    the element class's prototype, in enumeration order. *)
Definition elementClassProps (tagName : string)
    (HTMLElement_prototype : gset string)
    (events : option (gmap string string)) (prototype : list string)
    : gset string * list string :=
  foldl (scan_prototype tagName HTMLElement_prototype)
    (dom (default ∅ events), []) prototype.

(** ** ReactComponent *)

(** The function [render] stores in [_ref].  Each one is a new function,
    told apart here by a serial number, and closes over the [userRef] of the
    render that made it. *)
Record WrapperRef : Type := mkWrapperRef {
  wr_serial : nat;
  wr_userRef : Value
}.

Global Instance WrapperRef_eq_dec : EqDecision WrapperRef.
Proof. solve_decision. Defined.

(** A value in the props handed to [createElement]. *)
Inductive Attr : Type :=
| UserAttr (v : Value)
| RefAttr (r : WrapperRef).

(** [createElement(tagName, props)]. *)
Record ReactElement : Type := mkReactElement {
  el_tag : string;
  el_props : gmap string Attr
}.

(** The instance: [this.props] and the private fields, and the number of
    [_ref] functions made so far. *)
Record Component : Type := mkComponent {
  props : Obj;
  _element : option nat;
  _elementProps : Obj;
  _userRef : Value;
  _ref : option WrapperRef;
  refs_made : nat
}.

(** A new instance with its props: no element, [_elementProps] not yet
    assigned (nothing to enumerate), [_userRef] and [_ref] undefined. *)
Definition new_component (p : Obj) : Component :=
  {| props := p; _element := None; _elementProps := [];
     _userRef := undefined; _ref := None; refs_made := 0 |}.

(** React hands the instance its next props before it renders again. *)
Definition with_props (p : Obj) (c : Component) : Component :=
  mkComponent p (_element c) (_elementProps c) (_userRef c) (_ref c)
    (refs_made c).

(** One turn of the loop over [Object.entries(this.props)] in [render]; the
    state is the props for React and [_elementProps]. *)
Definition render_entry (ecp : gset string)
    (acc : gmap string Attr * Obj) (kv : string * Value)
    : gmap string Attr * Obj :=
  if decide (kv.1 = "__forwardedRef") then acc
  else if decide (kv.1 ∈ ecp) then (acc.1, prop_set acc.2 kv.1 kv.2)
  else (<[(if decide (kv.1 = "className") then "class" else kv.1)
          := UserAttr kv.2]> acc.1, acc.2).

(** The [_ref] that [render] leaves in place for the given [userRef]. *)
Definition refreshed_ref (userRef : Value) (c : Component) : WrapperRef :=
  match _ref c with
  | Some r =>
      if decide (_userRef c ≠ userRef)
      then {| wr_serial := refs_made c; wr_userRef := userRef |}
      else r
  | None => {| wr_serial := refs_made c; wr_userRef := userRef |}
  end.

(** [render()], for the [tagName] and the [elementClassProps] of the
    enclosing [createComponent]. *)
Definition render (tagName : string) (ecp : gset string) (c : Component)
    : Component * ReactElement :=
  let userRef := prop_get (props c) "__forwardedRef" in
  let ref := refreshed_ref userRef c in
  let made := if decide (_ref c = Some ref) then refs_made c
              else S (refs_made c) in
  let out := foldl (render_entry ecp) ({[ "ref" := RefAttr ref ]}, [])
               (props c) in
  ({| props := props c; _element := _element c; _elementProps := out.2;
      _userRef := _userRef c; _ref := Some ref; refs_made := made |},
   {| el_tag := tagName; el_props := out.1 |}).

(** A call of the function in [_ref] with the element or [null], as React
    makes it; [None] when [setRef] throws. *)
Definition call_ref (r : WrapperRef) (value : option nat) (c : Component)
    (refs : Refs) : option (Component * Refs) :=
  let element := match _element c with
                 | None => value
                 | Some e => Some e
                 end in
  refs' ← (if decide (wr_userRef r ≠ null)
           then setRef (wr_userRef r) value refs
           else Some refs);
  Some (mkComponent (props c) element (_elementProps c) (wr_userRef r)
          (_ref c) (refs_made c), refs').

(** [oldProps ? oldProps[prop] : undefined]. *)
Definition old_value (oldProps : option Obj) (prop : string) : Value :=
  match oldProps with
  | Some old => prop_get old prop
  | None => undefined
  end.

(** [_updateElement(oldProps?)], for the [events] of the enclosing
    [createComponent]. *)
Definition _updateElement (events : option (gmap string string))
    (oldProps : option Obj) (c : Component) (p : Page) : Page :=
  match _element c with
  | None => p
  | Some element =>
      foldl (λ p kv,
               setProperty element kv.1 (prop_get (props c) kv.1)
                 (old_value oldProps kv.1) events p)
        p (_elementProps c)
  end.

(** [componentDidMount()] and [componentDidUpdate(old)]. *)
Definition componentDidMount (events : option (gmap string string))
    (c : Component) (p : Page) : Page :=
  _updateElement events None c p.

Definition componentDidUpdate (events : option (gmap string string))
    (old : Obj) (c : Component) (p : Page) : Page :=
  _updateElement events (Some old) c p.

(** ** Sequences of calls and sample data *)

(** A run of [addOrUpdateEventListener] calls, oldest first. *)
Definition listen_all (calls : list (nat * string * Value)) (p : Page)
    : Page :=
  foldl (λ p c, addOrUpdateEventListener c.1.1 c.1.2 c.2 p) p calls.

(** The listener the last call for [(node, event)] asked for, [undefined]
    when there was no such call. *)
Definition last_listener (calls : list (nat * string * Value)) (node : nat)
    (event : string) : Value :=
  foldl (λ acc c, if decide (c.1 = (node, event)) then c.2 else acc)
    undefined calls.

(** The handler object the module holds for an event of an element. *)
Definition handler_of (p : Page) (node : nat) (event : string) : option nat :=
  default ∅ (listenedEvents p !! node) !! event.

(** The element's own listeners for one event. *)
Definition listeners_for (p : Page) (node : nat) (event : string)
    : list (string * nat) :=
  filter (λ eh, eh.1 = event) (default [] (eventListeners p !! node)).

(** The module's bookkeeping and the page agree: an element's listeners for
    an event are exactly the handler object the module holds for it, if any;
    that object has a [handleEvent] that is not [undefined]; and no handler
    object serves two events. *)
Definition in_step (p : Page) : Prop :=
  (∀ node event,
     match handler_of p node event with
     | Some h =>
         listeners_for p node event = [(event, h)]
         ∧ ∃ l, handlerObjects p !! h = Some l ∧ l ≠ undefined
     | None => listeners_for p node event = []
     end)
  ∧ (∀ node event node' event' h,
       handler_of p node event = Some h →
       handler_of p node' event' = Some h →
       node = node' ∧ event = event').

(** The values of the props kept for the element that name [event] and
    differ from their old value, in the order of [_elementProps]: the
    listeners [_updateElement] asks for, for that event. *)
Definition changed_listeners (events : option (gmap string string))
    (oldProps : option Obj) (c : Component) (event : string) : list Value :=
  omap (λ kv, if decide (event_of events kv.1 = Some event
                         ∧ prop_get (props c) kv.1 ≠ old_value oldProps kv.1)
              then Some (prop_get (props c) kv.1) else None)
    (_elementProps c).

(** What happens to a mounted component: React renders it with new props,
    or calls the current [_ref] function with an element or [null]. *)
Inductive Op : Type :=
| Render (p : Obj)
| RefCall (value : option nat).

Definition op (tagName : string) (ecp : gset string) (o : Op)
    (s : Component * Refs) : Component * Refs :=
  match o with
  | Render p => ((render tagName ecp (with_props p s.1)).1, s.2)
  | RefCall value =>
      match _ref s.1 with
      | Some r => default s (call_ref r value s.1 s.2)
      | None => s
      end
  end.

Definition run_ops (tagName : string) (ecp : gset string) (ops : list Op)
    (s : Component * Refs) : Component * Refs :=
  foldl (λ s o, op tagName ecp o s) s ops.

Definition f1 : Value := Function 1.
Definition f2 : Value := Function 2.

(** [{onactivate: 'activate'}]. *)
Definition events1 : option (gmap string string) :=
  Some {[ "onactivate" := "activate" ]}.

(** The props [{label: 'x', onactivate: f1, className: 'big',
    __forwardedRef: null}]. *)
Definition props1 : Obj :=
  [("label", Data (JsString "x")); ("onactivate", f1);
   ("className", Data (JsString "big")); ("__forwardedRef", null)].

(** The same with another listener and no label. *)
Definition props2 : Obj :=
  [("onactivate", f2); ("className", Data (JsString "big"));
   ("__forwardedRef", null)].

Definition ecp1 : gset string := list_to_set ["onactivate"; "label"].

(** The component after its first render with [props1], attached to the
    element 5; and after a second render with [props2]. *)
Definition mounted1 : Component :=
  {| props := props1; _element := Some 5%nat;
     _elementProps := [("label", Data (JsString "x")); ("onactivate", f1)];
     _userRef := null;
     _ref := Some {| wr_serial := 0; wr_userRef := null |};
     refs_made := 1 |}.

Definition mounted2 : Component :=
  {| props := props2; _element := Some 5%nat;
     _elementProps := [("onactivate", f2)];
     _userRef := null;
     _ref := Some {| wr_serial := 0; wr_userRef := null |};
     refs_made := 1 |}.

(** The properties on [HTMLElement.prototype] that matter here. *)
Definition html1 : gset string :=
  list_to_set ["children"; "localName"; "style"; "className"; "title"].

(** The props [{__forwardedRef: f1}] and [{__forwardedRef: {current}}]. *)
Definition props_fn : Obj := [("__forwardedRef", f1)].
Definition props_obj : Obj := [("__forwardedRef", Data (JsObject 3))].

(** A component rendered with [props_fn] whose ref function React has
    called with the element 5, and the user's refs after that call. *)
Definition called_fn : Component * Refs :=
  ({| props := props_fn; _element := Some 5%nat; _elementProps := [];
      _userRef := f1;
      _ref := Some {| wr_serial := 0; wr_userRef := f1 |};
      refs_made := 1 |},
   {| current := ∅; ref_calls := [(1%nat, Some 5%nat)] |}).

End CreateComponent.

(** * Properties *)

Example for_push_1_3 :
  for_push (items (Sample.showing 1 3)) 3 1 []
  = [Sample.b; Sample.c; Sample.d].
Proof. reflexivity. Qed.

Example render_1_3 :
  (render None (Sample.showing 1 3)).1.1
  = keyed [(Sample.b, (Sample.b, 0)); (Sample.c, (Sample.c, 1));
           (Sample.d, (Sample.d, 2))].
Proof. reflexivity. Qed.

Example update_detached :
  (update Sample.engine_defaults Sample.detached Sample.part Sample.five
     (initial Sample.html_stringify)).2
  = [ScheduleMicrotask Sample.part Sample.five].
Proof. reflexivity. Qed.

Example update_attached :
  (update Sample.engine_defaults Sample.attached Sample.part Sample.five
     (initial Sample.html_stringify)).2
  = [NewVirtualScroller Sample.div; AddRangeChangedListener Sample.div;
     WriteItems [Sample.a; Sample.b; Sample.c; Sample.d; Sample.e];
     WriteTotalItems 5; WriteLayout JsNull;
     WriteScrollTarget (Some (TargetElement Sample.div))].
Proof. reflexivity. Qed.

Example scenario_6 :
  trace (run Sample.engine_defaults (fresh Sample.html_stringify Sample.attached)
           [HostUpdate Sample.part Sample.five;
            RangeChanged Sample.div 1 3; RangeChanged Sample.div 2 4])
  = [NewVirtualScroller Sample.div; AddRangeChangedListener Sample.div;
     WriteItems [Sample.a; Sample.b; Sample.c; Sample.d; Sample.e];
     WriteTotalItems 5; WriteLayout JsNull;
     WriteScrollTarget (Some (TargetElement Sample.div));
     SetValue (keyed [(Sample.b, (Sample.b, 0)); (Sample.c, (Sample.c, 1));
                      (Sample.d, (Sample.d, 2))]);
     SetValue (keyed [(Sample.c, (Sample.c, 0)); (Sample.d, (Sample.d, 1));
                      (Sample.e, (Sample.e, 2))])].
Proof. reflexivity. Qed.

(** ** The loop and the keyed-list primitive *)

(** The loop appends the items at [i], [i + 1], ..., [last]. *)
Lemma for_push_seqZ (l : list JsValue) (last i : Z) (acc : list JsValue) :
  for_push l last i acc = acc ++ (js_index l <$> seqZ i (last + 1 - i)).
Proof.
  funelim (for_push l last i acc).
  - rewrite H. rewrite (seqZ_cons i) by lia.
    rewrite fmap_cons, <- app_assoc. simpl.
    do 3 f_equal. f_equal; lia.
  - rewrite seqZ_nil by lia. by rewrite app_nil_r.
Qed.

(** [repeat] numbers the entries from the index it starts at. *)
Lemma repeat_from_fmap {T : Type} (l : list JsValue) (keyFn : JsValue → JsValue)
    (template : JsValue → Z → T) (n start index : Z) :
  repeat_from index (js_index l <$> seqZ start n) keyFn template
  = (λ i, (keyFn (js_index l i), template (js_index l i) (index + (i - start))))
      <$> seqZ start n.
Proof.
  destruct (decide (n ≤ 0)) as [Hn|Hn]; [by rewrite !seqZ_nil by lia|].
  rewrite <- (Z2Nat.id n) by lia.
  generalize (Z.to_nat n) as k. clear n Hn. intros k.
  revert start index. induction k as [|k IH]; intros start index.
  - by rewrite !seqZ_nil by lia.
  - rewrite (seqZ_cons start) by lia. rewrite !fmap_cons. cbn [repeat_from].
    replace (index + (start - start)) with index by lia. f_equal.
    replace (Z.pred (Z.of_nat (S k))) with (Z.of_nat k) by lia.
    rewrite IH. apply list_fmap_ext. intros _ i _. do 2 f_equal. lia.
Qed.

(** [repeat] yields one entry per element. *)
Lemma length_repeat {T : Type} (l : list JsValue) (keyFn : JsValue → JsValue)
    (template : JsValue → Z → T) :
  length (repeat l keyFn template) = length l.
Proof.
  unfold repeat. generalize 0 as index.
  induction l as [|x l IH]; intros index; simpl; [done|].
  by rewrite IH.
Qed.

Section Properties.

Context {TemplateResult : Type}.
Context (html_stringify : JsValue → TemplateResult).
Context (engine_defaults : VirtualScroller).

Implicit Types (this : ScrollDirective TemplateResult).
Implicit Types (config : ScrollConfig TemplateResult).
Implicit Types (w : World TemplateResult).
Implicit Types (log : list (Effect TemplateResult)).

(** ** What each method computes *)

Lemma render_unfold (config : option (ScrollConfig TemplateResult)) this :
  render config this
  = (keyed (repeat (itemsToRender (configured config this))
              (keyFunction (configured config this))
              (renderItem (configured config this))),
     configured config this, []).
Proof. by destruct config. Qed.

Lemma Zgeb_guard (f l : Z) :
  (f >=? 0) && (l >=? f) = bool_decide (¬ (f < 0 ∨ l < f)).
Proof.
  rewrite !Z.geb_leb.
  destruct (Z.leb_spec 0 f), (Z.leb_spec f l); simpl;
    symmetry; (apply bool_decide_eq_true_2 || apply bool_decide_eq_false_2);
    lia.
Qed.

Lemma repeat_itemsToRender this :
  repeat (itemsToRender this) (keyFunction this) (renderItem this)
  = window_projection this.
Proof.
  unfold itemsToRender, window_projection. rewrite Zgeb_guard.
  destruct (decide (first this < 0 ∨ last this < first this)) as [Hg|Hg].
  - by rewrite bool_decide_eq_false_2 by tauto.
  - rewrite bool_decide_eq_true_2 by done.
    rewrite for_push_seqZ. simpl. unfold repeat.
    replace (last this + 1 - first this) with (last this - first this + 1)
      by lia.
    rewrite repeat_from_fmap. apply list_fmap_ext. intros _ i _.
    do 2 f_equal.
Qed.

Lemma configured_range (config : option (ScrollConfig TemplateResult)) this :
  first (configured config this) = first this
  ∧ last (configured config this) = last this
  ∧ items (configured config this) = items this
  ∧ scroller (configured config this) = scroller this
  ∧ container (configured config this) = container this.
Proof. by destruct config. Qed.

(** What [render] computes, entry by entry.  It returns the keyed sequence
    of the stored range and touches nothing but the two stored functions:
    the sequence is empty when [first < 0] or [last < first]; otherwise it
    has one entry per index [i] of [first..last], in ascending order, keyed
    by [keyFunction(items[i])], and [renderItem] is called with [items[i]]
    and the entry's position in the window, [i - first]. *)
Theorem render_window_projection
    (config : option (ScrollConfig TemplateResult)) this :
  render config this
  = (keyed (window_projection (configured config this)),
     configured config this, [])
  ∧ first (configured config this) = first this
  ∧ last (configured config this) = last this
  ∧ items (configured config this) = items this.
Proof.
  rewrite render_unfold, repeat_itemsToRender.
  split; [done|]. destruct (configured_range config this) as (? & ? & ? & _).
  done.
Qed.

(** [render] is [render_via repeat]. *)
Lemma render_via_repeat this :
  (render None this).1.1 = keyed (render_via repeat this).
Proof. by rewrite render_unfold. Qed.

(** ** What [update] computes *)

(** Open the monad's operations so that a method body reduces. *)
Ltac unfold_method :=
  unfold mbind, Method_bind, mret, Method_ret, get_this, set_this, modify,
    emit;
  cbn beta iota delta [scroller fst snd app].

Lemma apply_config_unfold config this :
  apply_config config this
  = let this1 := with_items (default [] (cfg_items config))
                   (with_scroller (pushed config this <$> scroller this) this)
    in (keyed (window_projection (configured (Some config) this1)),
        configured (Some config) this1,
        writes config this).
Proof.
  unfold apply_config, writes, pushed, write_scroller.
  destruct this as [c [s|] f l r k its];
    destruct (truthy (cfg_scrollToIndex config)) eqn:Hsti;
    cbn; rewrite ?Hsti; cbn;
    rewrite <- repeat_itemsToRender; reflexivity.
Qed.

(** Bound already: [_initialize] is not called. *)
Lemma update_bound doc part config this :
  is_Some (scroller this) →
  update engine_defaults doc part config this = apply_config config this.
Proof.
  intros [s Hs]. unfold update. destruct this as [c sc f l r k its].
  simpl in Hs. subst sc. unfold_method.
  destruct (apply_config config _) as [[out this'] log]. reflexivity.
Qed.

(** Unbound and not bindable: one retry, [nothing] returned. *)
Lemma update_deferred doc part config this :
  scroller this = None →
  bindable doc part = false →
  update engine_defaults doc part config this
  = (nothing, with_container (parentNode doc part) this,
     [ScheduleMicrotask part config]).
Proof.
  intros Hs Hb. unfold update, _initialize, bindable in *.
  destruct this as [c sc f l r k its]. simpl in Hs. subst sc.
  destruct (parentNode doc part) as [n|]; [rewrite Hb|]; reflexivity.
Qed.

(** Unbound and bindable: the engine is constructed, the listener is
    registered, and the configuration is applied. *)
Lemma update_binds doc part config this c :
  scroller this = None →
  parentNode doc part = Some c →
  nodeType c = 1 →
  update engine_defaults doc part config this
  = let this1 := with_scroller (Some (new_VirtualScroller engine_defaults c))
                   (with_container (Some c) this) in
    ((apply_config config this1).1,
     NewVirtualScroller c :: AddRangeChangedListener c
       :: (apply_config config this1).2).
Proof.
  intros Hs Hp Hn. unfold update, _initialize.
  destruct this as [c0 sc f l r k its]. simpl in Hs. subst sc.
  rewrite Hp, Hn. change (1 =? 1) with true. unfold_method.
  change (with_container (Some c) _) with
    (with_container (Some c) (mkScrollDirective c0 None f l r k its)).
  destruct (apply_config config _) as [[out this'] log]. reflexivity.
Qed.

Lemma rangeChanged_listener_unfold (f l : Z) this :
  rangeChanged_listener f l this
  = (tt, with_last l (with_first f this),
     [SetValue (keyed (window_projection (with_last l (with_first f this))))]).
Proof.
  unfold rangeChanged_listener. cbn.
  rewrite <- repeat_itemsToRender. reflexivity.
Qed.

(** ** The window projection, entry by entry *)

Lemma window_projection_lookup this (i : Z) :
  0 ≤ first this → first this ≤ i ≤ last this →
  window_projection this !! Z.to_nat (i - first this)
  = Some (keyFunction this (js_index (items this) i),
          renderItem this (js_index (items this) i) (i - first this)).
Proof.
  intros Hf Hi. unfold window_projection.
  rewrite decide_False by lia.
  rewrite list_lookup_fmap, lookup_seqZ_lt by lia. simpl.
  by replace (first this + Z.of_nat (Z.to_nat (i - first this))) with i
    by lia.
Qed.

Lemma window_projection_empty this :
  first this < 0 ∨ last this < first this → window_projection this = [].
Proof. intros H. unfold window_projection. by rewrite decide_True. Qed.

Lemma length_window_projection this :
  0 ≤ first this ≤ last this →
  Z.of_nat (length (window_projection this)) = last this - first this + 1.
Proof.
  intros H. unfold window_projection. rewrite decide_False by lia.
  rewrite length_fmap, length_seqZ. lia.
Qed.

Lemma js_index_in_range (l : list JsValue) (i : Z) :
  0 ≤ i < Z.of_nat (length l) → l !! Z.to_nat i = Some (js_index l i).
Proof.
  intros H. unfold js_index. rewrite decide_True by lia.
  destruct (lookup_lt_is_Some_2 l (Z.to_nat i)) as [x Hx]; [lia|].
  by rewrite Hx.
Qed.

Lemma js_index_out_of_range (l : list JsValue) (i : Z) :
  Z.of_nat (length l) ≤ i → js_index l i = JsUndefined.
Proof.
  intros H. unfold js_index. case_decide; [|done].
  by rewrite lookup_ge_None_2 by lia.
Qed.

(** C2.  Let the window be [(f, l)] with [0 <= f <= l < items.length] and
    let it slide to [(f + 1, l + 1)].  Every item [i] that is in both
    windows is an element of the list, and its key is
    [keyFunction(items[i])] in the old sequence (at position [i - f]) and in
    the new one (at position [i - f - 1]): the same key value at a new
    position. *)
Theorem key_stability_under_slide this (f l i : Z) :
  0 ≤ f ≤ l → l < Z.of_nat (length (items this)) → f + 1 ≤ i ≤ l →
  let old := with_last l (with_first f this) in
  let new := with_last (l + 1) (with_first (f + 1) old) in
  let key := keyFunction this (js_index (items this) i) in
  items this !! Z.to_nat i = Some (js_index (items this) i)
  ∧ keys_of (render None old).1.1 !! Z.to_nat (i - f) = Some key
  ∧ keys_of (render None new).1.1 !! Z.to_nat (i - f - 1) = Some key.
Proof.
  intros Hfl Hl Hi old new key.
  split; [apply js_index_in_range; lia|].
  rewrite !render_unfold, !repeat_itemsToRender. unfold keys_of. simpl.
  rewrite !list_lookup_fmap. split.
  - pose proof (window_projection_lookup old i) as H. simpl in H.
    rewrite H by lia. done.
  - pose proof (window_projection_lookup new i) as H. simpl in H.
    replace (i - f - 1) with (i - (f + 1)) by lia.
    rewrite H by lia. done.
Qed.

(** C10.  For a stored range with [0 <= first <= last], [render] returns a
    keyed sequence with an entry for every index of the range, also for
    those past the end of the items: such an entry is built from
    [undefined], and with the default key function its key is [undefined],
    the same for all of them. *)
Theorem render_out_of_bounds this (i : Z) :
  0 ≤ first this ≤ last this →
  first this ≤ i ≤ last this →
  Z.of_nat (length (items this)) ≤ i →
  ∃ entries,
    (render None this).1.1 = keyed entries
    ∧ Z.of_nat (length entries) = last this - first this + 1
    ∧ entries !! Z.to_nat (i - first this)
      = Some (keyFunction this JsUndefined,
              renderItem this JsUndefined (i - first this))
    ∧ (keyFunction this = defaultKeyFunction →
       entries.*1 !! Z.to_nat (i - first this) = Some JsUndefined).
Proof.
  intros Hr Hi Hlen. exists (window_projection this).
  rewrite render_unfold, repeat_itemsToRender. simpl.
  split; [done|]. split; [by apply length_window_projection|].
  assert (window_projection this !! Z.to_nat (i - first this)
          = Some (keyFunction this JsUndefined,
                  renderItem this JsUndefined (i - first this))) as Hlk.
  { rewrite window_projection_lookup by lia.
    by rewrite js_index_out_of_range. }
  split; [done|]. intros Hk.
  rewrite list_lookup_fmap, Hlk. simpl. by rewrite Hk.
Qed.

(** C8.  The constructor throws, with the directive's message, exactly when
    the part is not a child part; for a child part it returns the instance
    with its initial fields.  Nothing else has run by then: a failed
    construction yields no instance to call [update] or [render] on. *)
Theorem constructor_child_only (part : PartInfo) :
  (part_type part ≠ CHILD →
   constructor html_stringify part
   = inl "The scroll directive can only be used in child expressions"%string)
  ∧ (part_type part = CHILD →
     constructor html_stringify part = inr (initial html_stringify)).
Proof.
  unfold constructor. split; intros H.
  - by rewrite decide_True.
  - by rewrite decide_False by (intros Hne; by apply Hne).
Qed.

(** C7.  The listener stores the notification's [first] and [last] and then
    hands [setValue] the projection of that new range; it changes no other
    field and does nothing else.  When one listener is registered on the
    node, dispatching [rangeChanged] there does exactly this, with no call
    of [update]. *)
Theorem rangeChanged_pushes_projection this w (target : Node) (f l : Z) :
  let this' := with_last l (with_first f this) in
  rangeChanged_listener f l this
    = (tt, this', [SetValue (render None this').1.1])
  ∧ first this' = f ∧ last this' = l
  ∧ (render None this').1.1 = keyed (window_projection this')
  ∧ (count (listens_on target) (trace w) = 1%nat →
     step engine_defaults w (RangeChanged target f l)
     = {| self := with_last l (with_first f (self w));
          document := document w;
          microtasks := microtasks w;
          trace := trace w
            ++ [SetValue (keyed (window_projection
                                   (with_last l (with_first f (self w)))))] |}).
Proof.
  intros this'. rewrite rangeChanged_listener_unfold.
  rewrite render_unfold, repeat_itemsToRender. simpl.
  repeat split; try done.
  intros H1. unfold step. rewrite H1. cbn [Nat.iter nat_rect]. unfold call.
  rewrite app_nil_r, <- repeat_itemsToRender. reflexivity.
Qed.

(** ** The three ways an [update] call can go *)

Lemma bindable_true doc part :
  bindable doc part = true →
  ∃ c, parentNode doc part = Some c ∧ nodeType c = 1.
Proof.
  unfold bindable. destruct (parentNode doc part) as [c|]; [|done].
  intros H. exists c. split; [done|]. by apply Z.eqb_eq.
Qed.

(** The instance [apply_config] leaves behind. *)
Lemma apply_config_fields config this :
  let after := (apply_config config this).1.2 in
  first after = first this ∧ last after = last this
  ∧ container after = container this
  ∧ scroller after = pushed config this <$> scroller this
  ∧ items after = default [] (cfg_items config).
Proof. rewrite apply_config_unfold. by destruct this. Qed.

Lemma apply_config_log config this :
  (apply_config config this).2 = writes config this.
Proof. by rewrite apply_config_unfold. Qed.

(** Either the call defers (unbound, not bindable), or it applies the
    configuration to an instance [this1] that holds an engine: [this] itself
    when it was bound, [this] just bound otherwise. *)
Lemma update_cases doc part config this :
  (scroller this = None ∧ bindable doc part = false
   ∧ update engine_defaults doc part config this
     = (nothing, with_container (parentNode doc part) this,
        [ScheduleMicrotask part config]))
  ∨ (∃ this1 pre,
       is_Some (scroller this1)
       ∧ first this1 = first this ∧ last this1 = last this
       ∧ update engine_defaults doc part config this
         = ((apply_config config this1).1, pre ++ writes config this1)
       ∧ ((is_Some (scroller this) ∧ this1 = this ∧ pre = [])
          ∨ (∃ c, scroller this = None ∧ parentNode doc part = Some c
                  ∧ nodeType c = 1
                  ∧ this1 = with_scroller
                              (Some (new_VirtualScroller engine_defaults c))
                              (with_container (Some c) this)
                  ∧ pre = [NewVirtualScroller c;
                           AddRangeChangedListener c]))).
Proof.
  destruct (scroller this) as [s|] eqn:Hs.
  - right. exists this, []. rewrite Hs. repeat split; try done.
    + rewrite update_bound by (by rewrite Hs).
      rewrite <- apply_config_log.
      by destruct (apply_config config this) as [[out after] log].
    + left. done.
  - destruct (bindable doc part) eqn:Hb.
    + right. destruct (bindable_true _ _ Hb) as (c & Hp & Hn).
      exists (with_scroller (Some (new_VirtualScroller engine_defaults c))
                (with_container (Some c) this)),
        [NewVirtualScroller c; AddRangeChangedListener c].
      split; [done|]. split; [by destruct this|].
      split; [by destruct this|]. split.
      * rewrite (update_binds doc part config this c Hs Hp Hn).
        cbv zeta. by rewrite apply_config_log.
      * right. exists c. repeat split; done.
    + left. repeat split. by apply update_deferred.
Qed.

(** ** Counting effects *)

Lemma count_app (p : Effect TemplateResult → bool) log1 log2 :
  count p (log1 ++ log2) = (count p log1 + count p log2)%nat.
Proof. unfold count. by rewrite filter_app, length_app. Qed.

Lemma count_nil (p : Effect TemplateResult → bool) : count p [] = 0%nat.
Proof. done. Qed.

Lemma count_cons (p : Effect TemplateResult → bool) e log :
  count p (e :: log) = ((if p e then 1 else 0) + count p log)%nat.
Proof.
  unfold count. rewrite filter_cons.
  destruct (p e); by case_decide.
Qed.

(** Count through a log of known shape. *)
Ltac count_log :=
  rewrite ?count_app, ?count_cons, ?count_nil;
  cbn [is_NewVirtualScroller is_AddRangeChangedListener is_ScheduleMicrotask
       is_WriteScrollToIndex].

Lemma count_writes config this :
  count is_NewVirtualScroller (writes config this) = 0%nat
  ∧ count is_AddRangeChangedListener (writes config this) = 0%nat
  ∧ count is_ScheduleMicrotask (writes config this) = 0%nat.
Proof.
  unfold writes. by destruct (truthy (cfg_scrollToIndex config)); count_log.
Qed.

(** ** Calls in a world *)

Lemma call_unfold {A : Type} (m : Method TemplateResult A) w :
  call m w
  = ((m (self w)).1.1,
     {| self := (m (self w)).1.2;
        document := document w;
        microtasks := microtasks w ++ scheduled (m (self w)).2;
        trace := trace w ++ (m (self w)).2 |}).
Proof. unfold call. by destruct (m (self w)) as [[a this'] log]. Qed.

Lemma update_preserves_range doc part config this :
  first (update engine_defaults doc part config this).1.2 = first this
  ∧ last (update engine_defaults doc part config this).1.2 = last this.
Proof.
  destruct (update_cases doc part config this)
    as [(_ & _ & ->)|(this1 & pre & _ & Hf & Hl & -> & _)].
  - by destruct this.
  - simpl. destruct (apply_config_fields config this1) as (-> & -> & _).
    done.
Qed.

(** One [update] call keeps [engine_once], whatever the document and the
    queue are. *)
Lemma update_engine_once doc part config w rest :
  engine_once w →
  engine_once
    (call (update engine_defaults doc part config)
       {| self := self w; document := document w;
          microtasks := rest; trace := trace w |}).2.
Proof.
  intros (Hn & Ha & H0). rewrite call_unfold. unfold engine_once. simpl.
  destruct (update_cases doc part config (self w))
    as [(Hs & _ & ->)|(this1 & pre & Hs1 & _ & _ & -> & Hpre)]; simpl.
  - count_log. destruct (H0 Hs) as [-> ->]. repeat split; lia.
  - rewrite !count_app.
    destruct (count_writes config this1) as (-> & -> & _).
    destruct (apply_config_fields config this1) as (_ & _ & _ & -> & _).
    destruct Hs1 as [s1 ->].
    destruct Hpre as [(_ & _ & ->)|(c & Hs & _ & _ & _ & ->)]; count_log.
    + repeat split; try lia; done.
    + destruct (H0 Hs) as [-> ->]. repeat split; try lia; done.
Qed.

Lemma listener_engine_once (f l : Z) w :
  engine_once w → engine_once (call (rangeChanged_listener f l) w).2.
Proof.
  intros (Hn & Ha & H0). rewrite call_unfold, rangeChanged_listener_unfold.
  unfold engine_once. simpl. count_log.
  rewrite !Nat.add_0_r. repeat split; try done; by apply H0.
Qed.

Lemma step_engine_once w (ev : Event TemplateResult) :
  engine_once w → engine_once (step engine_defaults w ev).
Proof.
  intros Hw. destruct ev as [part config| |target f l|doc]; simpl.
  - pose proof (update_engine_once (document w) part config w (microtasks w) Hw)
      as H. by destruct w.
  - destruct (microtasks w) as [|[part config] rest]; [done|].
    by apply update_engine_once.
  - generalize (count (listens_on target) (trace w)) as n.
    induction n as [|n IH]; [done|]. simpl. by apply listener_engine_once.
  - done.
Qed.

Lemma run_engine_once w (evs : list (Event TemplateResult)) :
  engine_once w → engine_once (run engine_defaults w evs).
Proof.
  revert w. induction evs as [|ev evs IH]; intros w Hw; [done|].
  simpl. apply IH. by apply step_engine_once.
Qed.

(** C4.  From construction on, whatever the host, the scheduler, the engine
    and the document do, the trace holds at most one engine construction and
    at most one listener registration; and an [update] call on an instance
    that holds an engine constructs nothing, registers nothing, and leaves
    the instance with that engine, on the same container. *)
Theorem engine_constructed_once (doc : Document)
    (evs : list (Event TemplateResult)) this (doc' : Document)
    (part : ChildPart) config :
  let w := run engine_defaults (fresh html_stringify doc) evs in
  let r := update engine_defaults doc' part config this in
  (count is_NewVirtualScroller (trace w) ≤ 1)%nat
  ∧ (count is_AddRangeChangedListener (trace w) ≤ 1)%nat
  ∧ (is_Some (scroller this) →
     count is_NewVirtualScroller r.2 = 0%nat
     ∧ count is_AddRangeChangedListener r.2 = 0%nat
     ∧ is_Some (scroller r.1.2)
     ∧ vs_container <$> scroller r.1.2 = vs_container <$> scroller this).
Proof.
  intros w r.
  assert (engine_once w) as (Hn & Ha & _).
  { apply run_engine_once. unfold engine_once, fresh. simpl.
    count_log. repeat split; lia. }
  split; [done|]. split; [done|]. intros Hs. subst r.
  rewrite update_bound by done. rewrite apply_config_log.
  destruct (count_writes config this) as (-> & -> & _).
  destruct (apply_config_fields config this) as (_ & _ & _ & -> & _).
  destruct Hs as [s ->]. simpl. repeat split; done.
Qed.

(** ** Deferred binding *)

Lemma scheduled_writes config this : scheduled (writes config this) = [].
Proof. unfold writes. by destruct (truthy (cfg_scrollToIndex config)). Qed.

(** C3.  An [update] call on an instance without an engine, at a part whose
    parent is missing or is not an element, returns [nothing] and schedules
    exactly one microtask, the same [update] with the same part and
    configuration.  When that microtask runs (the instance still without an
    engine) it reads the part's parent anew from the document as it is
    then: if the part is still not bindable it schedules one retry again, and
    if it has become bindable it binds. *)
Theorem update_unbound_defers w (part : ChildPart) config :
  scroller (self w) = None →
  bindable (document w) part = false →
  let r := update engine_defaults (document w) part config (self w) in
  r = (nothing, with_container (parentNode (document w) part) (self w),
       [ScheduleMicrotask part config])
  ∧ count is_ScheduleMicrotask r.2 = 1%nat
  ∧ microtasks (step engine_defaults w (HostUpdate part config))
    = microtasks w ++ [(part, config)]
  ∧ (∀ w1 rest,
       scroller (self w1) = None →
       microtasks w1 = (part, config) :: rest →
       let w2 := step engine_defaults w1 MicrotaskTurn in
       (bindable (document w1) part = false →
        scroller (self w2) = None
        ∧ microtasks w2 = rest ++ [(part, config)]
        ∧ trace w2 = trace w1 ++ [ScheduleMicrotask part config])
       ∧ (bindable (document w1) part = true →
          is_Some (scroller (self w2))
          ∧ microtasks w2 = rest
          ∧ count is_NewVirtualScroller (trace w2)
            = S (count is_NewVirtualScroller (trace w1)))).
Proof.
  intros Hs Hb r. subst r.
  rewrite (update_deferred _ _ _ _ Hs Hb). split; [done|].
  split; [by count_log|]. split.
  { cbn [step]. rewrite call_unfold.
    by rewrite (update_deferred _ _ _ _ Hs Hb). }
  intros w1 rest Hs1 Hq w2. subst w2. cbn [step]. rewrite Hq.
  rewrite call_unfold. cbn [self document microtasks trace snd].
  split; intros Hb1.
  - by rewrite (update_deferred _ _ _ _ Hs1 Hb1); destruct (self w1).
  - destruct (update_cases (document w1) part config (self w1))
      as [(_ & Hb2 & _)|(this1 & pre & Hs2 & _ & _ & -> & Hpre)];
      [congruence|].
    destruct Hpre as [([s Hs'] & _)|(c & _ & _ & _ & _ & ->)];
      [congruence|].
    cbn [fst snd].
    destruct (apply_config_fields config this1) as (_ & _ & _ & -> & _).
    destruct Hs2 as [s2 ->]. split; [done|].
    rewrite count_app.
    replace (scheduled (_ ++ writes config this1)) with
      (@nil (ChildPart * ScrollConfig TemplateResult)).
    2: { change ([NewVirtualScroller c; AddRangeChangedListener c]
                  ++ writes config this1)
           with (NewVirtualScroller c :: AddRangeChangedListener c
                   :: writes config this1).
         unfold scheduled. cbn [omap list_omap].
         symmetry. apply scheduled_writes. }
    rewrite app_nil_r. split; [done|]. count_log.
    destruct (count_writes config this1) as (-> & _). lia.
Qed.

(** ** Configuration application *)

(** Where the code and the specification agree on [totalItems]: whenever the
    explicit value is not [0]. *)
Lemma totalItems_of_spec config :
  cfg_totalItems config ≠ Some 0 →
  totalItems_of config = spec_totalItems config.
Proof.
  unfold totalItems_of, spec_totalItems, number_or.
  destruct (cfg_totalItems config) as [n|]; intros Hn.
  - destruct (Z.eqb_spec n 0) as [->|]; [done|]. done.
  - destruct (cfg_items config) as [l|]; simpl; [|done].
    by destruct (Z.eqb_spec (Z.of_nat (length l)) 0) as [->|].
Qed.

(** An explicit [0] falls through to the length of the items. *)
Lemma totalItems_of_zero config :
  cfg_totalItems config = Some 0 →
  totalItems_of config = Z.of_nat (length (default [] (cfg_items config))).
Proof.
  unfold totalItems_of, number_or. intros ->. simpl.
  destruct (cfg_items config) as [l|]; simpl; [|done].
  by destruct (Z.eqb_spec (Z.of_nat (length l)) 0) as [->|].
Qed.

(** A bound [update] hands the engine [totalItems_of config]. *)
Lemma update_pushes_totalItems doc part config this :
  is_Some (scroller this) →
  let r := update engine_defaults doc part config this in
  WriteTotalItems (totalItems_of config) ∈ r.2
  ∧ vs_totalItems <$> scroller r.1.2 = Some (totalItems_of config).
Proof.
  intros Hs r. subst r. rewrite update_bound by done.
  rewrite apply_config_log.
  destruct (apply_config_fields config this) as (_ & _ & _ & -> & _).
  destruct Hs as [s ->]. split; [|done].
  unfold writes. apply elem_of_app. left. set_solver.
Qed.

(** C6.  Take two consecutive [update] calls, the first of which leaves the
    instance with an engine, and let the second configuration omit
    [scrollToIndex].  The second call does not write the engine's
    [scrollToIndex] and the field keeps the value it had after the first
    call.  In any call the field is written only with the configuration's
    own [scrollToIndex], which is then present. *)
Theorem scrollToIndex_sticky (doc1 doc2 : Document) (part1 part2 : ChildPart)
    config1 config2 this :
  let r1 := update engine_defaults doc1 part1 config1 this in
  let r2 := update engine_defaults doc2 part2 config2 r1.1.2 in
  is_Some (scroller r1.1.2) →
  cfg_scrollToIndex config2 = JsUndefined →
  count is_WriteScrollToIndex r2.2 = 0%nat
  ∧ vs_scrollToIndex <$> scroller r2.1.2
    = vs_scrollToIndex <$> scroller r1.1.2
  ∧ (∀ v, WriteScrollToIndex v ∈ r1.2 →
          v = cfg_scrollToIndex config1 ∧ v ≠ JsUndefined).
Proof.
  intros r1 r2 Hs Hc. subst r2. split; [|split].
  - rewrite update_bound by done. rewrite apply_config_log.
    unfold writes. rewrite Hc. by count_log.
  - rewrite update_bound by done.
    destruct (apply_config_fields config2 r1.1.2) as (_ & _ & _ & -> & _).
    destruct Hs as [s ->]. simpl. by rewrite Hc.
  - intros v Hv. subst r1.
    destruct (update_cases doc1 part1 config1 this)
      as [(_ & _ & Heq)|(this1 & pre & _ & _ & _ & Heq & Hpre)];
      rewrite Heq in Hv; simpl in Hv.
    + apply list_elem_of_singleton in Hv. discriminate.
    + assert (WriteScrollToIndex v ∈ writes config1 this1) as Hw.
      { apply elem_of_app in Hv as [Hv|Hv]; [|done].
        destruct Hpre as [(_ & _ & ->)|(c & _ & _ & _ & _ & ->)].
        - by apply elem_of_nil in Hv.
        - repeat (apply elem_of_cons in Hv as [Hv|Hv]; [discriminate|]).
          by apply elem_of_nil in Hv. }
      unfold writes in Hw.
      destruct (truthy (cfg_scrollToIndex config1)) eqn:Ht.
      * repeat (apply elem_of_cons in Hw as [Hw|Hw]; [discriminate|]).
        apply list_elem_of_singleton in Hw. injection Hw as ->.
        split; [done|]. intros Hu. by rewrite Hu in Ht.
      * repeat (apply elem_of_cons in Hw as [Hw|Hw]; [discriminate|]).
        by apply elem_of_nil in Hw.
Qed.

(** ** Before the first range notification *)

Lemma step_range_initial w (ev : Event TemplateResult) :
  is_RangeChanged ev = false →
  range_initial w → range_initial (step engine_defaults w ev).
Proof.
  intros Hev [Hf Hl]. unfold range_initial.
  destruct ev as [part config| |target f l|doc]; try done; cbn [step].
  - rewrite call_unfold. cbn [snd self].
    destruct (update_preserves_range (document w) part config (self w))
      as [-> ->]. done.
  - destruct (microtasks w) as [|[part config] rest]; [done|].
    rewrite call_unfold. cbn [snd self].
    destruct (update_preserves_range (document w) part config (self w))
      as [-> ->]. done.
Qed.

Lemma run_range_initial w (evs : list (Event TemplateResult)) :
  Forall (λ ev, is_RangeChanged ev = false) evs →
  range_initial w → range_initial (run engine_defaults w evs).
Proof.
  intros Hevs. revert w.
  induction Hevs as [|ev evs Hev _ IH]; intros w Hw; [done|].
  simpl. apply IH. by apply step_range_initial.
Qed.

(** With the initial range, an [update] call that ends with an engine
    returns the empty keyed sequence. *)
Lemma update_initial_range doc part config this :
  first this = 0 → last this = -1 →
  let r := update engine_defaults doc part config this in
  (is_Some (scroller r.1.2) → r.1.1 = keyed [])
  ∧ (scroller r.1.2 = None → r.1.1 = nothing).
Proof.
  intros Hf Hl r. subst r.
  destruct (update_cases doc part config this)
    as [(Hs & _ & ->)|(this1 & pre & Hs1 & Hf1 & Hl1 & -> & _)]; simpl.
  - split; [|done]. rewrite Hs. by intros [? ?].
  - destruct (apply_config_fields config this1) as (_ & _ & _ & Hsc & _).
    rewrite Hsc. destruct Hs1 as [s1 ->].
    split; [intros _|done].
    rewrite apply_config_unfold. simpl. f_equal.
    apply window_projection_empty. right. simpl. lia.
Qed.

(** C9.  A constructed instance has the range [(0, -1)], and keeps it as
    long as no range notification arrives, whatever else happens.  In that
    time every [update] call that ends with the instance bound returns the
    empty keyed sequence, whatever items the configuration carries (and one
    that ends unbound returns [nothing]). *)
Theorem initial_range_renders_nothing (doc : Document)
    (evs : list (Event TemplateResult)) (part : ChildPart) config :
  Forall (λ ev, is_RangeChanged ev = false) evs →
  let w := run engine_defaults (fresh html_stringify doc) evs in
  let r := update engine_defaults (document w) part config (self w) in
  (first (initial html_stringify) = 0 ∧ last (initial html_stringify) = -1)
  ∧ (first (self w) = 0 ∧ last (self w) = -1)
  ∧ (is_Some (scroller r.1.2) → r.1.1 = keyed [])
  ∧ (scroller r.1.2 = None → r.1.1 = nothing).
Proof.
  intros Hevs w r. split; [done|].
  assert (range_initial w) as [Hf Hl].
  { by apply run_range_initial. }
  split; [done|]. by apply update_initial_range.
Qed.

End Properties.

(** Two stored ranges at which [render] and [spec_projection] differ.  With
    the range [(1, 1)] the only entry is rendered with index [0], its
    position in the window, not [1]; with the range [(-1, -1)], which the
    guard [first >= 0] turns away, the sequence is empty. *)
Lemma render_not_spec_projection :
  ((render None (Sample.showing 1 1)).1.1
     = keyed [(Sample.b, (Sample.b, 0))]
   ∧ spec_projection (Sample.showing 1 1) = [(Sample.b, (Sample.b, 1))]
   ∧ (render None (Sample.showing 1 1)).1.1
     ≠ keyed (spec_projection (Sample.showing 1 1)))
  ∧ ((render None (Sample.showing (-1) (-1))).1.1 = keyed []
     ∧ spec_projection (Sample.showing (-1) (-1))
       = [(JsUndefined, (JsUndefined, -1))]
     ∧ (render None (Sample.showing (-1) (-1))).1.1
       ≠ keyed (spec_projection (Sample.showing (-1) (-1)))).
Proof. repeat split; vm_compute; discriminate. Qed.

(** The index of an item in [items] is out of reach of any keyed-list
    primitive that is handed [renderItem] as it is: the ranges [(0, 0)] and
    [(1, 1)] over [[a; a]] give it the same items, so it returns the same
    entries, while the specification's sequences differ in the index handed
    to the render function.  The offset [first] has to be added by [render]
    itself. *)
Lemma no_primitive_sees_the_offset
    (primitive : list JsValue → (JsValue → JsValue)
                 → (JsValue → Z → Sample.T) → list (JsValue * Sample.T)) :
  ¬ (∀ this : ScrollDirective Sample.T,
       render_via primitive this = spec_projection this).
Proof.
  intros H.
  pose (this0 := mkScrollDirective None None 0 0 Sample.echo
                   defaultKeyFunction [Sample.a; Sample.a]).
  pose proof (H this0) as H0.
  pose proof (H (with_last 1 (with_first 1 this0))) as H1.
  unfold render_via in H0, H1.
  change (itemsToRender (with_last 1 (with_first 1 this0)))
    with (itemsToRender this0) in H1.
  change (keyFunction (with_last 1 (with_first 1 this0)))
    with (keyFunction this0) in H1.
  change (renderItem (with_last 1 (with_first 1 this0)))
    with (renderItem this0) in H1.
  rewrite H0 in H1. vm_compute in H1. discriminate.
Qed.

(** C1.  [render] keys and orders the entries as the specification says,
    but the index it lets [renderItem] see is not the item's index [i]: with
    the items [a..e] and the range [(1, 3)] it yields the entries of [b],
    [c], [d] with the indices 0, 1, 2, where the specification has 1, 2, 3;
    and once the window has slid to [(2, 4)], [c] and [d], which stayed in
    view, are rendered with the indices 0 and 1 where they had 1 and 2.  The
    keys in the two sequences are those of the specification. *)
Lemma render_drops_the_offset :
  (render None (Sample.showing 1 3)).1.1
  = keyed [(Sample.b, (Sample.b, 0)); (Sample.c, (Sample.c, 1));
           (Sample.d, (Sample.d, 2))]
  ∧ spec_projection (Sample.showing 1 3)
    = [(Sample.b, (Sample.b, 1)); (Sample.c, (Sample.c, 2));
       (Sample.d, (Sample.d, 3))]
  ∧ (render None (Sample.showing 2 4)).1.1
    = keyed [(Sample.c, (Sample.c, 0)); (Sample.d, (Sample.d, 1));
             (Sample.e, (Sample.e, 2))]
  ∧ spec_projection (Sample.showing 2 4)
    = [(Sample.c, (Sample.c, 2)); (Sample.d, (Sample.d, 3));
       (Sample.e, (Sample.e, 4))]
  ∧ keys_of (render None (Sample.showing 1 3)).1.1
    = (spec_projection (Sample.showing 1 3)).*1
  ∧ (render None (Sample.showing 1 3)).1.1
    ≠ keyed (spec_projection (Sample.showing 1 3)).
Proof.
  split; [reflexivity|]. split; [reflexivity|]. split; [reflexivity|].
  split; [reflexivity|]. split; [reflexivity|].
  vm_compute. discriminate.
Qed.

(** ** The theorems at sample inputs *)

(** C2 at [a..e]: the window slides from [(1, 3)] to [(2, 4)]; item 2, [c],
    keeps its key. *)
Lemma key_stability_witness :
  items (Sample.showing 0 (-1)) !! 2%nat = Some Sample.c
  ∧ keys_of (render None (Sample.showing 1 3)).1.1 !! 1%nat = Some Sample.c
  ∧ keys_of (render None (Sample.showing 2 4)).1.1 !! 0%nat = Some Sample.c.
Proof.
  apply (key_stability_under_slide (Sample.showing 0 (-1)) 1 3 2);
    simpl; lia.
Defined.

(** C3 at a part that sits under a document fragment. *)
Lemma update_unbound_defers_witness :
  update Sample.engine_defaults Sample.detached Sample.part Sample.five
    (initial Sample.html_stringify)
  = (nothing,
     with_container (Some Sample.fragment) (initial Sample.html_stringify),
     [ScheduleMicrotask Sample.part Sample.five])
  ∧ microtasks (step Sample.engine_defaults
                  (fresh Sample.html_stringify Sample.detached)
                  (HostUpdate Sample.part Sample.five))
    = [(Sample.part, Sample.five)].
Proof.
  destruct (update_unbound_defers Sample.engine_defaults
              (fresh Sample.html_stringify Sample.detached)
              Sample.part Sample.five eq_refl eq_refl)
    as (H1 & _ & H3 & _).
  split; [exact H1 | exact H3].
Defined.

(** C4 after two updates, a retry turn and a notification, and for one more
    update on a bound instance. *)
Lemma engine_constructed_once_witness :
  let w := run Sample.engine_defaults
             (fresh Sample.html_stringify Sample.detached)
             [HostUpdate Sample.part Sample.five;
              DocumentChange Sample.attached;
              HostUpdate Sample.part Sample.five;
              MicrotaskTurn;
              RangeChanged Sample.div 1 3] in
  let r := update Sample.engine_defaults Sample.attached Sample.part
             Sample.five (Sample.showing 1 3) in
  (count is_NewVirtualScroller (trace w) ≤ 1)%nat
  ∧ (count is_AddRangeChangedListener (trace w) ≤ 1)%nat
  ∧ count is_NewVirtualScroller r.2 = 0%nat
  ∧ count is_AddRangeChangedListener r.2 = 0%nat.
Proof.
  intros w r.
  destruct (engine_constructed_once Sample.html_stringify
              Sample.engine_defaults Sample.detached
              [HostUpdate Sample.part Sample.five;
               DocumentChange Sample.attached;
               HostUpdate Sample.part Sample.five;
               MicrotaskTurn;
               RangeChanged Sample.div 1 3]
              (Sample.showing 1 3) Sample.attached Sample.part Sample.five)
    as (H1 & H2 & H3).
  destruct (H3 (ex_intro _ _ eq_refl)) as (H4 & H5 & _).
  exact (conj H1 (conj H2 (conj H4 H5))).
Defined.

(** C6: a scroll target is requested, then an update omits it. *)
Lemma scrollToIndex_sticky_witness :
  let r1 := update Sample.engine_defaults Sample.attached Sample.part
              Sample.with_target (initial Sample.html_stringify) in
  let r2 := update Sample.engine_defaults Sample.attached Sample.part
              Sample.five r1.1.2 in
  count is_WriteScrollToIndex r2.2 = 0%nat
  ∧ vs_scrollToIndex <$> scroller r2.1.2 = Some (JsObject 3).
Proof.
  intros r1 r2.
  destruct (scrollToIndex_sticky Sample.engine_defaults Sample.attached
              Sample.attached Sample.part Sample.part Sample.with_target
              Sample.five (initial Sample.html_stringify)
              (ex_intro _ _ eq_refl) eq_refl)
    as (H1 & H2 & _).
  split; [exact H1 | exact H2].
Defined.

(** C7: a notification [{first: 1, last: 3}] in the bound sample world. *)
Lemma rangeChanged_pushes_projection_witness :
  trace (step Sample.engine_defaults Sample.bound_world
           (RangeChanged Sample.div 1 3))
  = trace Sample.bound_world
    ++ [SetValue (keyed [(Sample.b, (Sample.b, 0));
                         (Sample.c, (Sample.c, 1));
                         (Sample.d, (Sample.d, 2))])].
Proof.
  destruct (rangeChanged_pushes_projection Sample.engine_defaults
              (self Sample.bound_world) Sample.bound_world Sample.div 1 3)
    as (_ & _ & _ & _ & H).
  rewrite (H eq_refl). reflexivity.
Defined.

(** C8: an attribute part is refused, a child part is accepted. *)
Lemma constructor_child_only_witness :
  constructor Sample.html_stringify {| part_type := ATTRIBUTE |}
  = inl "The scroll directive can only be used in child expressions"%string
  ∧ constructor Sample.html_stringify {| part_type := CHILD |}
    = inr (initial Sample.html_stringify).
Proof.
  split.
  - apply (constructor_child_only Sample.html_stringify
             {| part_type := ATTRIBUTE |}). discriminate.
  - apply (constructor_child_only Sample.html_stringify
             {| part_type := CHILD |}). reflexivity.
Defined.

(** C9: five items are configured, twice, and nothing is rendered yet. *)
Lemma initial_range_renders_nothing_witness :
  let w := run Sample.engine_defaults
             (fresh Sample.html_stringify Sample.attached)
             [HostUpdate Sample.part Sample.five] in
  (update Sample.engine_defaults (document w) Sample.part Sample.five
     (self w)).1.1 = keyed [].
Proof.
  intros w.
  destruct (initial_range_renders_nothing Sample.html_stringify
              Sample.engine_defaults Sample.attached
              [HostUpdate Sample.part Sample.five] Sample.part Sample.five)
    as (_ & _ & H & _).
  - repeat constructor.
  - apply H. vm_compute. eexists. reflexivity.
Defined.

(** C10: the range [(3, 6)] over five items; index 5 is past the end. *)
Lemma render_out_of_bounds_witness :
  ∃ entries,
    (render None (Sample.showing 3 6)).1.1 = keyed entries
    ∧ Z.of_nat (length entries) = 4
    ∧ entries !! 2%nat = Some (JsUndefined, (JsUndefined, 2))
    ∧ (defaultKeyFunction = defaultKeyFunction →
       entries.*1 !! 2%nat = Some JsUndefined).
Proof.
  apply (render_out_of_bounds (Sample.showing 3 6) 5); simpl; lia.
Defined.

(** C5 at [{items: [a], totalItems: 0}] on a bound instance: the engine is
    handed [1], the length of the items, where the specification gives the
    explicit [0]. *)
Lemma update_zero_totalItems :
  let r := update Sample.engine_defaults Sample.attached Sample.part
             Sample.zero_total (Sample.showing 0 (-1)) in
  r.2 = [WriteItems [Sample.a]; WriteTotalItems 1; WriteLayout JsNull;
         WriteScrollTarget (Some (TargetElement Sample.div))]
  ∧ vs_totalItems <$> scroller r.1.2 = Some 1
  ∧ spec_totalItems Sample.zero_total = 0
  ∧ totalItems_of Sample.zero_total ≠ spec_totalItems Sample.zero_total.
Proof. repeat split. discriminate. Qed.

(** * Further properties of the directive *)

Section Wiring.

Context {TemplateResult : Type}.
Context (html_stringify : JsValue → TemplateResult).
Context (engine_defaults : VirtualScroller).

Implicit Types (this : ScrollDirective TemplateResult).
Implicit Types (config : ScrollConfig TemplateResult).
Implicit Types (w : World TemplateResult).

Lemma count_listens_writes config this (c : Node) :
  count (listens_on c) (writes config this) = 0%nat.
Proof.
  unfold writes.
  destruct (truthy (cfg_scrollToIndex config));
    rewrite ?count_app, ?count_cons, ?count_nil; done.
Qed.

(** One [update] call keeps [wired], whatever the document and the queue. *)
Lemma update_wired (doc : Document) (part : ChildPart) config w
    (rest : list (ChildPart * ScrollConfig TemplateResult)) :
  wired w →
  wired (call (update engine_defaults doc part config)
           {| self := self w; document := document w;
              microtasks := rest; trace := trace w |}).2.
Proof.
  intros Hw. rewrite call_unfold. unfold wired in *. cbn [snd self trace].
  destruct (update_cases engine_defaults doc part config (self w))
    as [(Hs & _ & ->)|(this1 & pre & Hs1 & _ & _ & -> & Hpre)].
  - cbn [fst snd]. rewrite Hs in Hw.
    replace (scroller (with_container (parentNode doc part) (self w)))
      with (@None VirtualScroller) by (by destruct (self w)).
    intros c. rewrite count_app, Hw, count_cons, count_nil. done.
  - cbn [fst snd].
    destruct (apply_config_fields config this1)
      as (_ & _ & Hc & Hsc & Hit).
    rewrite Hsc, Hc, Hit.
    destruct Hpre as [(Hs & -> & ->)|(c0 & Hs & _ & Hn & -> & ->)].
    + destruct Hs as [s Hs]. rewrite Hs in Hw |- *.
      destruct Hw as (Hcont & Hnt & _ & Hcnt). cbn -[writes count].
      repeat split; try done.
      intros c. rewrite count_app, count_listens_writes, Hcnt. lia.
    + rewrite Hs in Hw. cbn -[writes count]. repeat split; try done.
      intros c. rewrite count_app, !count_cons, count_listens_writes, Hw.
      cbn [listens_on].
      rewrite (bool_decide_ext (c0 = c) (c = c0)) by naive_solver.
      by destruct (bool_decide (c = c0)).
Qed.

Lemma listener_wired (f l : Z) w :
  wired w → wired (call (rangeChanged_listener f l) w).2.
Proof.
  intros Hw. rewrite call_unfold, rangeChanged_listener_unfold.
  unfold wired in *. cbn [fst snd self trace].
  replace (scroller (with_last l (with_first f (self w))))
    with (scroller (self w)) by (by destruct (self w)).
  destruct (scroller (self w)) as [s|].
  - destruct Hw as (Hc & Hn & Hi & Hcnt).
    repeat split; try done; try (by destruct (self w)).
    intros c. rewrite count_app, count_cons, count_nil, Hcnt. cbn. lia.
  - intros c. rewrite count_app, count_cons, count_nil, Hw. done.
Qed.

Lemma step_wired w (ev : Event TemplateResult) :
  wired w → wired (step engine_defaults w ev).
Proof.
  intros Hw. destruct ev as [part config| |target f l|doc]; simpl.
  - pose proof (update_wired (document w) part config w (microtasks w) Hw)
      as H. by destruct w.
  - destruct (microtasks w) as [|[part config] rest]; [done|].
    by apply update_wired.
  - generalize (count (listens_on target) (trace w)) as n.
    induction n as [|n IH]; [done|]. simpl. by apply listener_wired.
  - done.
Qed.

Lemma run_wired w (evs : list (Event TemplateResult)) :
  wired w → wired (run engine_defaults w evs).
Proof.
  revert w. induction evs as [|ev evs IH]; intros w Hw; [done|].
  simpl. apply IH. by apply step_wired.
Qed.

Lemma fresh_wired (doc : Document) : wired (fresh html_stringify doc).
Proof. intros c. done. Qed.

End Wiring.

Section Reachable.

Context {TemplateResult : Type}.
Context (html_stringify : JsValue → TemplateResult).
Context (engine_defaults : VirtualScroller).

Implicit Types (this : ScrollDirective TemplateResult).
Implicit Types (config : ScrollConfig TemplateResult).
Implicit Types (w : World TemplateResult).

(** X1.  Whatever has happened since construction, an instance that holds an
    engine has registered exactly one [rangeChanged] listener, on the
    engine's container, which is the stored container and an element, and
    none on any other node.  A notification that reaches the container is
    handled once: the range is stored and one output is pushed.  While the
    instance holds no engine it has no listener anywhere, and a notification
    changes nothing. *)
Theorem notifications_reach_one_listener (doc : Document)
    (evs : list (Event TemplateResult)) (target : Node) (f l : Z) :
  let w := run engine_defaults (fresh html_stringify doc) evs in
  let w' := step engine_defaults w (RangeChanged target f l) in
  match scroller (self w) with
  | None => w' = w
  | Some s =>
      container (self w) = Some (vs_container s)
      ∧ nodeType (vs_container s) = 1
      ∧ count (listens_on (vs_container s)) (trace w) = 1%nat
      ∧ (∀ c, c ≠ vs_container s →
              count (listens_on c) (trace w) = 0%nat)
      ∧ (target = vs_container s →
         w' = {| self := with_last l (with_first f (self w));
                 document := document w;
                 microtasks := microtasks w;
                 trace := trace w
                   ++ [SetValue (keyed (window_projection
                                   (with_last l (with_first f (self w)))))] |})
  end.
Proof.
  intros w w'.
  assert (wired w) as Hw by apply run_wired, fresh_wired.
  unfold wired in Hw. subst w'. cbn [step].
  destruct (scroller (self w)) as [s|].
  - destruct Hw as (Hc & Hn & _ & Hcnt).
    split; [done|]. split; [done|]. split.
    { by rewrite Hcnt, bool_decide_eq_true_2. }
    split; [intros c Hc'|intros Ht].
    + by rewrite Hcnt, bool_decide_eq_false_2.
    + rewrite Hcnt, bool_decide_eq_true_2 by done.
      cbn [Nat.iter nat_rect]. rewrite call_unfold.
      rewrite rangeChanged_listener_unfold. cbn [fst snd scheduled omap list_omap].
      by rewrite app_nil_r.
  - by rewrite Hw.
Qed.

(** X2.  After every [update] that leaves the instance bound, the instance
    and the engine hold the same items, those of that call's configuration,
    or none when it omits them: items are replaced, not kept.  And between
    events the two always agree. *)
Theorem items_follow_the_last_update (doc : Document)
    (evs : list (Event TemplateResult)) (part : ChildPart) config :
  let w := run engine_defaults (fresh html_stringify doc) evs in
  let w' := step engine_defaults w (HostUpdate part config) in
  (∀ s, scroller (self w) = Some s → vs_items s = items (self w))
  ∧ (∀ s', scroller (self w') = Some s' →
       items (self w') = default [] (cfg_items config)
       ∧ vs_items s' = default [] (cfg_items config)).
Proof.
  intros w w'. split.
  - intros s Hs.
    assert (wired w) as Hw by apply run_wired, fresh_wired.
    unfold wired in Hw. rewrite Hs in Hw. by destruct Hw as (_ & _ & ? & _).
  - intros s' Hs'.
    assert (wired w') as Hw'.
    { apply step_wired, run_wired, fresh_wired. }
    unfold wired in Hw'. rewrite Hs' in Hw'.
    destruct Hw' as (_ & _ & Hi & _). rewrite Hi.
    enough (items (self w') = default [] (cfg_items config)) by done.
    subst w'. cbn [step] in *. rewrite call_unfold in *. cbn [snd self] in *.
    destruct (update_cases engine_defaults (document w) part config (self w))
      as [(Hs & _ & Heq)|(this1 & pre & _ & _ & _ & Heq & _)];
      rewrite Heq in *; cbn [fst snd] in *.
    + exfalso. destruct (self w); simpl in *. congruence.
    + by destruct (apply_config_fields config this1) as (_ & _ & _ & _ & ->).
Qed.

(** X3.  After every [update] that leaves the instance bound, the engine's
    scroll target is the configuration's, or the engine's own container when
    the configuration has none, and its layout is the configuration's, or
    [null] when that is omitted: neither field is kept from an earlier
    call. *)
Theorem scrollTarget_defaults_to_container (doc : Document)
    (evs : list (Event TemplateResult)) (part : ChildPart) config :
  let w := run engine_defaults (fresh html_stringify doc) evs in
  let w' := step engine_defaults w (HostUpdate part config) in
  ∀ s', scroller (self w') = Some s' →
    vs_scrollTarget s'
    = Some (default (TargetElement (vs_container s'))
              (cfg_scrollTarget config))
    ∧ vs_layout s' = js_or (cfg_layout config) JsNull.
Proof.
  intros w w' s' Hs'.
  assert (wired w') as Hw'.
  { apply step_wired, run_wired, fresh_wired. }
  unfold wired in Hw'. rewrite Hs' in Hw'. destruct Hw' as (Hc' & _).
  subst w'. cbn [step] in *. rewrite call_unfold in *. cbn [snd self] in *.
  destruct (update_cases engine_defaults (document w) part config (self w))
    as [(Hs & _ & Heq)|(this1 & pre & [s1 Hs1] & _ & _ & Heq & _)];
    rewrite Heq in *; cbn [fst snd] in *.
  - exfalso. destruct (self w); simpl in *. congruence.
  - destruct (apply_config_fields config this1) as (_ & _ & Hc & Hsc & _).
    rewrite Hsc, Hs1 in Hs'. rewrite Hc in Hc'. simpl in Hs'.
    injection Hs' as <-. cbn [pushed vs_scrollTarget vs_layout vs_container]
      in *.
    split; [|done]. unfold scrollTarget_of. rewrite Hc'.
    by destruct (cfg_scrollTarget config).
Qed.

(** X4.  An [update] that leaves the instance bound stores the
    configuration's render and key functions, each only if given, otherwise
    the stored one stays; an [update] that defers stores neither; a range
    notification changes neither. *)
Theorem functions_are_sticky (doc : Document) (part : ChildPart) config this
    (f l : Z) :
  let r := update engine_defaults doc part config this in
  let n := rangeChanged_listener f l this in
  (is_Some (scroller r.1.2) →
   renderItem r.1.2 = default (renderItem this) (cfg_renderItem config)
   ∧ keyFunction r.1.2 = default (keyFunction this) (cfg_keyFunction config))
  ∧ (scroller r.1.2 = None →
     renderItem r.1.2 = renderItem this
     ∧ keyFunction r.1.2 = keyFunction this)
  ∧ renderItem n.1.2 = renderItem this
  ∧ keyFunction n.1.2 = keyFunction this.
Proof.
  intros r n. subst r n. rewrite rangeChanged_listener_unfold.
  destruct (update_cases engine_defaults doc part config this)
    as [(Hs & _ & ->)|(this1 & pre & [s1 Hs1] & _ & _ & -> & Hpre)];
    cbn [fst snd].
  - split; [|split; [|split]]; try (by destruct this).
    intros [s Hs']. exfalso. destruct this; simpl in *. congruence.
  - rewrite apply_config_unfold. cbn [fst snd].
    assert (renderItem this1 = renderItem this
            ∧ keyFunction this1 = keyFunction this) as [Hr Hk].
    { destruct Hpre as [(_ & -> & _)|(c & _ & _ & _ & -> & _)];
        by destruct this. }
    split; [|split; [|split]]; try (by destruct this).
    + intros _. rewrite <- Hr, <- Hk. by destruct this1.
    + intros Hn. exfalso. destruct this1; simpl in *. subst.
      discriminate.
Qed.

(** X5.  An [update] with no items on a bound instance whose stored range is
    [0 <= first <= last] returns one entry per index of the range, each built
    from [undefined]: the range outlives the items it was computed for. *)
Theorem update_without_items_renders_undefined (doc : Document)
    (part : ChildPart) config this (k : Z) :
  is_Some (scroller this) →
  cfg_items config = None →
  0 ≤ first this ≤ last this →
  0 ≤ k ≤ last this - first this →
  let r := update engine_defaults doc part config this in
  Z.of_nat (length (entries_of r.1.1)) = last this - first this + 1
  ∧ entries_of r.1.1 !! Z.to_nat k
    = Some (keyFunction r.1.2 JsUndefined, renderItem r.1.2 JsUndefined k).
Proof.
  intros Hs Hi Hr Hk r. subst r.
  rewrite update_bound by done. rewrite apply_config_unfold.
  cbn [fst snd entries_of]. rewrite Hi.
  set (after := configured _ _).
  assert (first after = first this ∧ last after = last this
          ∧ items after = []) as (Hf & Hl & Hit).
  { subst after. by destruct this. }
  split.
  - rewrite length_window_projection by lia. lia.
  - pose proof (window_projection_lookup after (first after + k)) as H.
    replace (first after + k - first after) with k in H by lia.
    rewrite H by lia. rewrite Hit.
    by rewrite js_index_out_of_range by (simpl; lia).
Qed.

(** X6.  A part that does not become bindable is retried on every microtask
    turn, without end: with one retry pending and the instance unbound,
    after [n] turns the instance is still unbound, one retry for the same
    part and configuration is pending again, and [n] more retries have been
    scheduled. *)
Theorem unbindable_part_is_retried_forever w (part : ChildPart) config
    (n : nat) :
  scroller (self w) = None →
  microtasks w = [(part, config)] →
  bindable (document w) part = false →
  let w' := run engine_defaults w (replicate n MicrotaskTurn) in
  scroller (self w') = None
  ∧ microtasks w' = [(part, config)]
  ∧ document w' = document w
  ∧ count is_ScheduleMicrotask (trace w')
    = (count is_ScheduleMicrotask (trace w) + n)%nat
  ∧ count is_NewVirtualScroller (trace w')
    = count is_NewVirtualScroller (trace w).
Proof.
  revert w. induction n as [|n IH]; intros w Hs Hq Hb.
  - simpl. repeat split; try done; lia.
  - change (run engine_defaults w (replicate (S n) MicrotaskTurn))
      with (run engine_defaults (step engine_defaults w MicrotaskTurn)
              (replicate n MicrotaskTurn)).
    set (w1 := step engine_defaults w MicrotaskTurn).
    assert (scroller (self w1) = None
            ∧ microtasks w1 = [(part, config)]
            ∧ document w1 = document w
            ∧ trace w1 = trace w ++ [ScheduleMicrotask part config])
      as (Hs1 & Hq1 & Hd1 & Ht1).
    { subst w1. cbn [step]. rewrite Hq, call_unfold.
      cbn [self document microtasks trace snd].
      rewrite (update_deferred engine_defaults _ _ _ _ Hs Hb).
      by destruct (self w). }
    destruct (IH w1 Hs1 Hq1) as (H1 & H2 & H3 & H4 & H5);
      [by rewrite Hd1|].
    cbv zeta in *. rewrite H1, H2, H3, H4, H5, Hd1, Ht1.
    rewrite !count_app, !count_cons, !count_nil.
    cbn [is_ScheduleMicrotask is_NewVirtualScroller].
    repeat split; lia.
Qed.

(** X7.  A retry that runs when the instance has meanwhile been bound is an
    ordinary [update] with the configuration it was scheduled with: that
    configuration's items replace the current ones and its writes reach the
    engine, no engine is constructed and nothing is scheduled. *)
Theorem stale_retry_applies_its_configuration w (part : ChildPart) config
    (rest : list (ChildPart * ScrollConfig TemplateResult)) :
  is_Some (scroller (self w)) →
  microtasks w = (part, config) :: rest →
  let w' := step engine_defaults w MicrotaskTurn in
  items (self w') = default [] (cfg_items config)
  ∧ trace w' = trace w ++ writes config (self w)
  ∧ microtasks w' = rest
  ∧ is_Some (scroller (self w')).
Proof.
  intros Hs Hq w'. subst w'. cbn [step]. rewrite Hq, call_unfold.
  cbn [self document microtasks trace snd].
  rewrite update_bound by done. rewrite apply_config_log.
  destruct (apply_config_fields config (self w)) as (_ & _ & _ & -> & ->).
  rewrite scheduled_writes, app_nil_r. destruct Hs as [s ->].
  repeat split; by eexists.
Qed.

End Reachable.

(** ** The further properties at sample inputs *)

(** X1 in the world bound by one [update]: one listener, on the container,
    none on the fragment; a notification that reaches the container is
    handled. *)
Lemma notifications_reach_one_listener_witness :
  count (listens_on Sample.div)
    (trace (run Sample.engine_defaults
              (fresh Sample.html_stringify Sample.attached)
              [HostUpdate Sample.part Sample.five])) = 1%nat
  ∧ count (listens_on Sample.fragment)
      (trace (run Sample.engine_defaults
                (fresh Sample.html_stringify Sample.attached)
                [HostUpdate Sample.part Sample.five])) = 0%nat
  ∧ self (step Sample.engine_defaults
            (run Sample.engine_defaults
               (fresh Sample.html_stringify Sample.attached)
               [HostUpdate Sample.part Sample.five])
            (RangeChanged Sample.div 1 3))
    = with_last 3
        (with_first 1
           (self (run Sample.engine_defaults
                    (fresh Sample.html_stringify Sample.attached)
                    [HostUpdate Sample.part Sample.five]))).
Proof.
  pose proof (notifications_reach_one_listener Sample.html_stringify
                Sample.engine_defaults Sample.attached
                [HostUpdate Sample.part Sample.five] Sample.div 1 3)
    as H.
  cbv zeta in H.
  assert (scroller (self (run Sample.engine_defaults
                            (fresh Sample.html_stringify Sample.attached)
                            [HostUpdate Sample.part Sample.five]))
          = Some Scenario.engine_five) as Hs by (vm_compute; reflexivity).
  rewrite Hs in H. destruct H as (_ & _ & H1 & H2 & H3).
  split; [exact H1|]. split.
  - apply H2. discriminate.
  - rewrite (H3 eq_refl). reflexivity.
Defined.

(** X2: after [five], an update that omits the items empties them. *)
Lemma items_follow_the_last_update_witness :
  items (self (step Sample.engine_defaults
                 (run Sample.engine_defaults
                    (fresh Sample.html_stringify Sample.attached)
                    [HostUpdate Sample.part Sample.five])
                 (HostUpdate Sample.part Scenario.empty_config)))
  = default [] (cfg_items Scenario.empty_config).
Proof.
  destruct (items_follow_the_last_update Sample.html_stringify
              Sample.engine_defaults Sample.attached
              [HostUpdate Sample.part Sample.five] Sample.part
              Scenario.empty_config) as [_ H].
  refine (proj1 (H Scenario.engine_empty _)). vm_compute. reflexivity.
Defined.

(** X3: with no scroll target configured the engine is given its own
    container. *)
Lemma scrollTarget_defaults_to_container_witness :
  ∃ s',
    scroller (self (step Sample.engine_defaults
                      (run Sample.engine_defaults
                         (fresh Sample.html_stringify Sample.attached)
                         [HostUpdate Sample.part Sample.five])
                      (HostUpdate Sample.part Scenario.empty_config)))
    = Some s'
    ∧ vs_scrollTarget s' = Some (TargetElement Sample.div).
Proof.
  exists Scenario.engine_empty.
  assert (scroller (self (step Sample.engine_defaults
                            (run Sample.engine_defaults
                               (fresh Sample.html_stringify Sample.attached)
                               [HostUpdate Sample.part Sample.five])
                            (HostUpdate Sample.part Scenario.empty_config)))
          = Some Scenario.engine_empty) as Hs by (vm_compute; reflexivity).
  split; [exact Hs|].
  exact (proj1 (scrollTarget_defaults_to_container Sample.html_stringify
                  Sample.engine_defaults Sample.attached
                  [HostUpdate Sample.part Sample.five] Sample.part
                  Scenario.empty_config Scenario.engine_empty Hs)).
Defined.

(** X4: an update without a render function keeps the stored one. *)
Lemma functions_are_sticky_witness :
  let r := update Sample.engine_defaults Sample.attached Sample.part
             Scenario.empty_config (Sample.showing 1 3) in
  renderItem r.1.2
  = default (renderItem (Sample.showing 1 3))
      (cfg_renderItem Scenario.empty_config).
Proof.
  intros r.
  refine (proj1 (proj1 (functions_are_sticky Sample.engine_defaults
                          Sample.attached Sample.part Scenario.empty_config
                          (Sample.showing 1 3) 0 0) _)).
  vm_compute. eexists. reflexivity.
Defined.

(** X5: the range [(1, 3)] is stored and the update carries no items. *)
Lemma update_without_items_renders_undefined_witness :
  let r := update Sample.engine_defaults Sample.attached Sample.part
             Scenario.empty_config (Sample.showing 1 3) in
  Z.of_nat (length (entries_of r.1.1))
  = last (Sample.showing 1 3) - first (Sample.showing 1 3) + 1
  ∧ entries_of r.1.1 !! Z.to_nat 2
    = Some (keyFunction r.1.2 JsUndefined, renderItem r.1.2 JsUndefined 2).
Proof.
  apply (update_without_items_renders_undefined Sample.engine_defaults
           Sample.attached Sample.part Scenario.empty_config
           (Sample.showing 1 3) 2);
    [by eexists | reflexivity | simpl; lia | simpl; lia].
Defined.

(** X6: three microtask turns in the waiting world. *)
Lemma unbindable_part_is_retried_forever_witness :
  let w' := run Sample.engine_defaults Scenario.waiting
              (replicate 3 MicrotaskTurn) in
  scroller (self w') = None
  ∧ microtasks w' = [(Sample.part, Sample.five)]
  ∧ document w' = document Scenario.waiting
  ∧ count is_ScheduleMicrotask (trace w')
    = (count is_ScheduleMicrotask (trace Scenario.waiting) + 3)%nat
  ∧ count is_NewVirtualScroller (trace w')
    = count is_NewVirtualScroller (trace Scenario.waiting).
Proof.
  apply (unbindable_part_is_retried_forever Sample.engine_defaults
           Scenario.waiting Sample.part Sample.five 3);
    vm_compute; reflexivity.
Defined.

(** X7: the retry with [five] runs after [other_config] was applied. *)
Lemma stale_retry_applies_its_configuration_witness :
  let w' := step Sample.engine_defaults Scenario.overtaken MicrotaskTurn in
  items (self w') = default [] (cfg_items Sample.five)
  ∧ trace w'
    = trace Scenario.overtaken
      ++ writes Sample.five (self Scenario.overtaken)
  ∧ microtasks w' = []
  ∧ is_Some (scroller (self w')).
Proof.
  apply (stale_retry_applies_its_configuration Sample.engine_defaults
           Scenario.overtaken Sample.part Sample.five []).
  - vm_compute. eexists. reflexivity.
  - vm_compute. reflexivity.
Defined.

(** * Properties of the React wrapper *)

Module CreateComponentFacts.

Import CreateComponent.

Local Open Scope string_scope.
Local Open Scope list_scope.

(** ** Listeners *)

Lemma omap_filter_fst (g : string * nat → option Value) (event : string)
    (l : list (string * nat)) :
  omap (λ eh, if decide (eh.1 = event) then g eh else None) l
  = omap g (filter (λ eh, eh.1 = event) l).
Proof.
  induction l as [|eh l IH]; [done|].
  rewrite filter_cons. cbn [omap list_omap].
  destruct (decide (eh.1 = event)); cbn [omap list_omap]; by rewrite IH.
Qed.

(** With the bookkeeping in step, an event reaches the one listener held for
    it, or nobody. *)
Lemma dispatch_in_step (p : Page) (node : nat) (event : string) :
  in_step p →
  dispatch p node event
  = match handler_of p node event with
    | Some h => option_list (handlerObjects p !! h)
    | None => []
    end.
Proof.
  intros [H _]. specialize (H node event). unfold dispatch.
  rewrite (omap_filter_fst (λ eh, handlerObjects p !! eh.2)).
  fold (listeners_for p node event).
  destruct (handler_of p node event) as [h|].
  - destruct H as [-> _]. cbn. by destruct (handlerObjects p !! h).
  - by rewrite H.
Qed.

(** The handler held after a call. *)
Lemma handler_of_addOrUpdate (node : nat) (event : string) (listener : Value)
    (p : Page) (node' : nat) (event' : string) :
  handler_of (addOrUpdateEventListener node event listener p) node' event'
  = if decide (node = node' ∧ event = event') then
      if decide (listener ≠ undefined)
      then Some (default (stdpp.base.fresh (dom (handlerObjects p)))
                   (handler_of p node event))
      else None
    else handler_of p node' event'.
Proof.
  unfold addOrUpdateEventListener, handler_of.
  destruct (decide (listener ≠ undefined)),
    (default ∅ (listenedEvents p !! node) !! event) as [h|] eqn:Hh;
    cbn [listenedEvents];
    destruct (decide (node = node')) as [<-|Hn];
    try destruct (decide (event = event')) as [<-|He];
    rewrite ?insert_insert_eq;
    repeat first
      [ rewrite lookup_insert_eq | rewrite lookup_insert_ne by done
      | rewrite lookup_delete_eq | rewrite lookup_delete_ne by done ];
    cbn [from_option id];
    repeat first
      [ rewrite lookup_insert_eq | rewrite lookup_insert_ne by done
      | rewrite lookup_delete_eq | rewrite lookup_delete_ne by done ];
    try (rewrite decide_True by done); try (rewrite decide_False by tauto);
    try done.
Qed.

(** The element's listeners after a call. *)
Lemma listeners_for_addOrUpdate (node : nat) (event : string)
    (listener : Value) (p : Page) (node' : nat) (event' : string) :
  listeners_for (addOrUpdateEventListener node event listener p) node' event'
  = if decide (node = node') then
      match decide (listener ≠ undefined), handler_of p node event with
      | left _, None =>
          listeners_for p node event'
          ++ (if decide (event = event')
              then [(event, stdpp.base.fresh (dom (handlerObjects p)))]
              else [])
      | right _, Some h =>
          filter (λ eh, eh ≠ (event, h)) (listeners_for p node event')
      | _, _ => listeners_for p node event'
      end
    else listeners_for p node' event'.
Proof.
  unfold addOrUpdateEventListener, handler_of, listeners_for.
  destruct (decide (listener ≠ undefined)),
    (default ∅ (listenedEvents p !! node) !! event) as [h|] eqn:Hh;
    cbn [eventListeners];
    unfold dom_addEventListener, dom_removeEventListener;
    destruct (decide (node = node')) as [<-|Hn];
    rewrite ?lookup_insert_eq, ?lookup_insert_ne by done;
    cbn [from_option id]; try done.
  - rewrite filter_app, filter_cons, filter_nil. cbn [fst].
    by destruct (decide (event = event')).
  - rewrite !list_filter_filter. apply list_filter_iff. naive_solver.
Qed.

(** The handler objects after a call. *)
Lemma handlerObjects_addOrUpdate (node : nat) (event : string)
    (listener : Value) (p : Page) :
  handlerObjects (addOrUpdateEventListener node event listener p)
  = if decide (listener ≠ undefined)
    then <[default (stdpp.base.fresh (dom (handlerObjects p)))
             (handler_of p node event) := listener]> (handlerObjects p)
    else handlerObjects p.
Proof.
  unfold addOrUpdateEventListener, handler_of.
  by destruct (decide (listener ≠ undefined)),
    (default ∅ (listenedEvents p !! node) !! event).
Qed.

(** A handler the module holds is an allocated object. *)
Lemma handler_allocated (p : Page) (node : nat) (event : string) (h : nat) :
  in_step p → handler_of p node event = Some h → h ∈ dom (handlerObjects p).
Proof.
  intros [H _] Hh. specialize (H node event). rewrite Hh in H.
  destruct H as (_ & l & Hl & _). apply elem_of_dom. by eexists.
Qed.

Lemma fresh_not_held (p : Page) (node : nat) (event : string) :
  in_step p →
  handler_of p node event ≠ Some (stdpp.base.fresh (dom (handlerObjects p))).
Proof.
  intros Hp Hh. apply (is_fresh (dom (handlerObjects p))).
  by eapply handler_allocated.
Qed.

(** A call keeps the bookkeeping in step. *)
Lemma addOrUpdate_in_step (node : nat) (event : string) (listener : Value)
    (p : Page) :
  in_step p → in_step (addOrUpdateEventListener node event listener p).
Proof.
  intros Hp. pose proof Hp as [H1 H2]. split.
  - intros node' event'.
    rewrite handler_of_addOrUpdate, listeners_for_addOrUpdate,
      handlerObjects_addOrUpdate.
    pose proof (H1 node event) as Hslot.
    pose proof (H1 node' event') as Hother.
    pose proof (fresh_not_held p node' event' Hp) as Hfresh.
    destruct (decide (node = node' ∧ event = event')) as [[<- <-]|Hne].
    + rewrite (decide_True (P := node = node)) by done.
      destruct (decide (listener ≠ undefined)) as [Hl|Hl],
        (handler_of p node event) as [h|]; cbn [from_option id].
      * destruct Hslot as [-> _]. split; [done|].
        exists listener. by rewrite lookup_insert_eq.
      * rewrite Hslot, decide_True by done. split; [done|].
        exists listener. by rewrite lookup_insert_eq.
      * destruct Hslot as [-> _]. rewrite filter_cons, filter_nil.
        by rewrite decide_False by naive_solver.
      * done.
    + destruct (handler_of p node' event') as [h'|] eqn:Hh'.
      * destruct Hother as (Hl' & l' & Hheap & Hdef).
        assert (listeners_for p node' event' = [(event', h')]
                → (if decide (node = node') then
                     match decide (listener ≠ undefined),
                           handler_of p node event with
                     | left _, None =>
                         listeners_for p node event'
                         ++ (if decide (event = event')
                             then [(event,
                                    stdpp.base.fresh (dom (handlerObjects p)))]
                             else [])
                     | right _, Some h =>
                         filter (λ eh, eh ≠ (event, h))
                           (listeners_for p node event')
                     | _, _ => listeners_for p node event'
                     end
                   else listeners_for p node' event') = [(event', h')])
          as Hlist.
        { intros HL. destruct (decide (node = node')) as [<-|]; [|done].
          assert (event ≠ event') by naive_solver.
          destruct (decide (listener ≠ undefined)),
            (handler_of p node event) as [h|]; rewrite ?HL; try done.
          - by rewrite decide_False, app_nil_r.
          - rewrite filter_cons, filter_nil.
            by rewrite decide_True by naive_solver. }
        split; [by apply Hlist|].
        exists l'. split; [|done].
        destruct (decide (listener ≠ undefined)); [|done].
        rewrite lookup_insert_ne; [done|].
        destruct (handler_of p node event) as [h|] eqn:Hh; cbn.
        -- intros <-. destruct (H2 _ _ _ _ _ Hh Hh'). naive_solver.
        -- intros <-. done.
      * destruct (decide (node = node')) as [<-|]; [|done].
        assert (event ≠ event') by naive_solver.
        destruct (decide (listener ≠ undefined)),
          (handler_of p node event) as [h|]; rewrite ?Hother; try done.
        by rewrite decide_False.
  - intros n1 e1 n2 e2 h. rewrite !handler_of_addOrUpdate.
    destruct (decide (node = n1 ∧ event = e1)) as [[<- <-]|Hne1],
      (decide (node = n2 ∧ event = e2)) as [[<- <-]|Hne2]; try done.
    + destruct (decide (listener ≠ undefined)); [|done].
      intros [= <-] Hh2. exfalso.
      destruct (handler_of p node event) as [h|] eqn:Hh; cbn in Hh2.
      * destruct (H2 _ _ _ _ _ Hh Hh2). naive_solver.
      * by eapply fresh_not_held.
    + destruct (decide (listener ≠ undefined)); [|done].
      intros Hh1 [= <-]. exfalso.
      destruct (handler_of p node event) as [h|] eqn:Hh; cbn in Hh1.
      * destruct (H2 _ _ _ _ _ Hh Hh1). naive_solver.
      * by eapply fresh_not_held.
    + apply H2.
Qed.

Lemma empty_page_in_step : in_step empty_page.
Proof. split; [intros node event; done|]. intros ?????. done. Qed.

(** What an event reaches after one call, on a page in step. *)
Lemma dispatch_addOrUpdate (node : nat) (event : string) (listener : Value)
    (p : Page) (node' : nat) (event' : string) :
  in_step p →
  dispatch (addOrUpdateEventListener node event listener p) node' event'
  = if decide (node = node' ∧ event = event')
    then (if decide (listener = undefined) then [] else [listener])
    else dispatch p node' event'.
Proof.
  intros Hp.
  rewrite (dispatch_in_step _ _ _ (addOrUpdate_in_step node event listener p Hp)).
  rewrite (dispatch_in_step p) by done.
  rewrite handler_of_addOrUpdate, handlerObjects_addOrUpdate.
  destruct (decide (node = node' ∧ event = event')) as [[<- <-]|Hne].
  - destruct (decide (listener ≠ undefined)) as [Hl|Hl].
    + rewrite lookup_insert_eq, decide_False by done. done.
    + rewrite decide_True; [done|]. by destruct (decide (listener = undefined)).
  - destruct (handler_of p node' event') as [h'|] eqn:Hh'; [|done].
    destruct (decide (listener ≠ undefined)); [|done].
    rewrite lookup_insert_ne; [done|].
    destruct Hp as [H1 H2].
    destruct (handler_of p node event) as [h|] eqn:Hh; cbn.
    + intros <-. destruct (H2 _ _ _ _ _ Hh Hh'). naive_solver.
    + intros <-. eapply fresh_not_held; [by split|done].
Qed.

Lemma listen_all_in_step (calls : list (nat * string * Value)) (p : Page) :
  in_step p → in_step (listen_all calls p).
Proof.
  revert p. induction calls as [|c calls IH]; intros p Hp; [done|].
  apply IH. by apply addOrUpdate_in_step.
Qed.

Lemma listen_all_snoc (calls : list (nat * string * Value))
    (c : nat * string * Value) (p : Page) :
  listen_all (calls ++ [c]) p
  = addOrUpdateEventListener c.1.1 c.1.2 c.2 (listen_all calls p).
Proof. unfold listen_all. by rewrite foldl_app. Qed.

Lemma last_listener_snoc (calls : list (nat * string * Value))
    (c : nat * string * Value) (node : nat) (event : string) :
  last_listener (calls ++ [c]) node event
  = if decide (c.1 = (node, event)) then c.2
    else last_listener calls node event.
Proof. unfold last_listener. by rewrite foldl_app. Qed.

(** X8.  After any run of [addOrUpdateEventListener] calls on a page without
    listeners, an event on an element reaches exactly the listener of the
    last call made for that element and event, once, and reaches nobody if
    that listener was [undefined] or there was no such call. *)
Theorem dispatch_reaches_the_last_listener
    (calls : list (nat * string * Value)) (node : nat) (event : string) :
  dispatch (listen_all calls empty_page) node event
  = if decide (last_listener calls node event = undefined) then []
    else [last_listener calls node event].
Proof.
  induction calls as [|c calls IH] using rev_ind; [done|].
  rewrite listen_all_snoc, last_listener_snoc.
  rewrite dispatch_addOrUpdate
    by apply listen_all_in_step, empty_page_in_step.
  destruct c as [[n e] l]. cbn [fst snd].
  destruct (decide (n = node ∧ e = event)) as [[-> ->]|Hne].
  - by rewrite (decide_True (P := (node, event) = (node, event))).
  - rewrite (decide_False (P := (n, e) = (node, event)))
      by (intros [= -> ->]; by apply Hne).
    exact IH.
Qed.

(** The module holds a handler exactly while the last listener asked for is
    defined. *)
Lemma handler_held_iff (calls : list (nat * string * Value)) (node : nat)
    (event : string) :
  is_Some (handler_of (listen_all calls empty_page) node event)
  ↔ last_listener calls node event ≠ undefined.
Proof.
  induction calls as [|c calls IH] using rev_ind.
  - split; [by intros [h Hh]|done].
  - rewrite listen_all_snoc, last_listener_snoc, handler_of_addOrUpdate.
    destruct c as [[n e] l]. cbn [fst snd].
    destruct (decide (n = node ∧ e = event)) as [[-> ->]|Hne].
    + rewrite (decide_True (P := (node, event) = (node, event))) by done.
      destruct (decide (l ≠ undefined)) as [Hl|Hl].
      * split; [done|]. intros _. by eexists.
      * split; [by intros [h Hh]|done].
    + rewrite (decide_False (P := (n, e) = (node, event)))
        by (intros [= -> ->]; by apply Hne).
      exact IH.
Qed.

(** X9.  On such a page every element has at most one listener per event,
    the module's own handler object; and replacing a listener that is in
    place by another one changes the handler object only: the element's list
    of listeners and the module's map stay as they are. *)
Theorem one_listener_per_event (calls : list (nat * string * Value))
    (node : nat) (event : string) (listener : Value) :
  let p := listen_all calls empty_page in
  let p' := addOrUpdateEventListener node event listener p in
  (length (listeners_for p node event) ≤ 1)%nat
  ∧ listeners_for p node event
    = match handler_of p node event with
      | Some h => [(event, h)]
      | None => []
      end
  ∧ (last_listener calls node event ≠ undefined →
     listener ≠ undefined →
     eventListeners p' = eventListeners p
     ∧ listenedEvents p' = listenedEvents p
     ∧ ∃ h, handler_of p node event = Some h
            ∧ handlerObjects p' = <[h := listener]> (handlerObjects p)).
Proof.
  intros p p'.
  assert (in_step p) as Hp by apply listen_all_in_step, empty_page_in_step.
  pose proof (proj1 Hp node event) as H.
  assert (listeners_for p node event
          = match handler_of p node event with
            | Some h => [(event, h)]
            | None => []
            end) as Hl.
  { destruct (handler_of p node event); [by destruct H|done]. }
  split; [|split; [done|]].
  - rewrite Hl. destruct (handler_of p node event); simpl; lia.
  - intros Hlast Hdef.
    apply handler_held_iff in Hlast as [h Hh]. fold p in Hh.
    subst p'. unfold addOrUpdateEventListener.
    unfold handler_of in Hh. rewrite Hh, decide_True by done.
    cbn [eventListeners listenedEvents handlerObjects].
    split; [done|]. split.
    + apply insert_id.
      destruct (listenedEvents p !! node) as [m|] eqn:Hm; [done|].
      cbn [from_option id] in Hh. by rewrite lookup_empty in Hh.
    + exists h. done.
Qed.

(** ** The properties the wrapper handles itself *)

Lemma reserved_iff (p : string) :
  p ∈ reservedReactProperties
  ↔ p = "children" ∨ p = "localName" ∨ p = "ref" ∨ p = "style"
    ∨ p = "className".
Proof. unfold reservedReactProperties. set_solver. Qed.

Lemma scan_prototype_fold (tagName : string) (html : gset string)
    (prototype : list string) (acc : gset string * list string) :
  let out := foldl (scan_prototype tagName html) acc prototype in
  (∀ k, k ∈ out.1
        ↔ k ∈ acc.1
          ∨ (k ∈ prototype ∧ (k ∉ html) ∧ (k ∉ reservedReactProperties)))
  ∧ out.2
    = acc.2
      ++ (warning tagName
            <$> filter (λ p, (p ∉ html) ∧ p ∈ reservedReactProperties)
                  prototype).
Proof.
  revert acc. induction prototype as [|p ps IH]; intros acc.
  - cbn. split; [|by rewrite app_nil_r]. intros k. set_solver.
  - cbn [foldl]. destruct (IH (scan_prototype tagName html acc p)) as [H1 H2].
    cbv zeta. rewrite H2. split.
    + intros k. rewrite H1. unfold scan_prototype.
      destruct (decide (p ∈ html)); [set_solver|].
      destruct (decide (p ∈ reservedReactProperties)); cbn [fst];
        set_solver.
    + rewrite filter_cons. unfold scan_prototype.
      destruct (decide (p ∈ html)).
      * by rewrite decide_False by tauto.
      * destruct (decide (p ∈ reservedReactProperties)); cbn [snd].
        -- rewrite decide_True by done. by rewrite fmap_cons, <- app_assoc.
        -- by rewrite decide_False by tauto.
Qed.

(** X10.  A prop is handled by the wrapper, not by React, exactly when it is
    a key of [events] or an enumerable property of the element class's
    prototype that is neither on [HTMLElement.prototype] nor one of React's
    reserved names.  A key of [events] is handled by the wrapper even when
    it is a reserved name or an [HTMLElement] property. *)
Theorem elementClassProps_membership (tagName : string) (html : gset string)
    (events : option (gmap string string)) (prototype : list string)
    (k : string) :
  k ∈ (elementClassProps tagName html events prototype).1
  ↔ is_Some (event_of events k)
    ∨ (k ∈ prototype ∧ (k ∉ html) ∧ (k ∉ reservedReactProperties)).
Proof.
  unfold elementClassProps.
  destruct (scan_prototype_fold tagName html prototype
              (dom (default ∅ events), [])) as [H _].
  rewrite H. cbn [fst]. rewrite elem_of_dom.
  unfold event_of. by destruct events as [m|]; cbn; rewrite ?lookup_empty.
Qed.

(** X11.  [createComponent] warns once for each enumerable prototype
    property that is a reserved React name and is not on
    [HTMLElement.prototype], in enumeration order, and for nothing else.
    When [children], [localName], [style] and [className] are on
    [HTMLElement.prototype], as in a browser, every warning is about
    [ref]. *)
Theorem warnings_are_about_ref (tagName : string) (html : gset string)
    (events : option (gmap string string)) (prototype : list string) :
  {[ "children"; "localName"; "style"; "className" ]} ⊆ html →
  let warnings := (elementClassProps tagName html events prototype).2 in
  warnings
  = warning tagName
      <$> filter (λ p, (p ∉ html) ∧ p ∈ reservedReactProperties) prototype
  ∧ ∀ m, m ∈ warnings → m = warning tagName "ref".
Proof.
  intros Hhtml warnings. subst warnings. unfold elementClassProps.
  destruct (scan_prototype_fold tagName html prototype
              (dom (default ∅ events), [])) as [_ H].
  rewrite H. cbn [snd app]. split; [done|].
  intros m [p [-> Hp]]%list_elem_of_fmap.
  apply list_elem_of_filter in Hp as [[Hn Hr] _].
  apply reserved_iff in Hr. f_equal.
  destruct Hr as [->|[->|[->|[->| ->]]]]; try done; exfalso; apply Hn;
    set_solver.
Qed.

(** ** What [render] hands to React and what it keeps *)

Lemma filter_ext_in {A : Type} (P Q : A → Prop)
    {dP : ∀ x, Decision (P x)} {dQ : ∀ x, Decision (Q x)} (l : list A) :
  (∀ x, x ∈ l → P x ↔ Q x) → filter P l = filter Q l.
Proof.
  induction l as [|x l IH]; intros Hext; [done|].
  rewrite !filter_cons.
  rewrite IH by (intros y Hy; apply Hext; by right).
  pose proof (Hext x (list_elem_of_here x l)) as Hx.
  destruct (decide (P x)) as [HP|HP], (decide (Q x)) as [HQ|HQ]; try done;
    exfalso; tauto.
Qed.

Lemma filter_none {A : Type} (P : A → Prop) {dP : ∀ x, Decision (P x)}
    (l : list A) :
  (∀ x, x ∈ l → ¬ P x) → filter P l = [].
Proof.
  induction l as [|x l IH]; intros Hno; [done|].
  rewrite filter_cons, decide_False by (apply Hno; by left).
  apply IH. intros y Hy. apply Hno. by right.
Qed.

(** With distinct keys, the entries with a given key are the one entry. *)
Lemma filter_key_NoDup (ps : Obj) (k : string) (v : Value) :
  NoDup ps.*1 → (k, v) ∈ ps → filter (λ kv, kv.1 = k) ps = [(k, v)].
Proof.
  induction ps as [|[k' v'] ps IH]; intros Hnd Hin; [by inversion Hin|].
  rewrite fmap_cons in Hnd. apply NoDup_cons in Hnd as [Hk' Hnd].
  rewrite filter_cons. cbn [fst].
  apply elem_of_cons in Hin as [[= <- <-]|Hin].
  - rewrite decide_True by done. f_equal.
    apply filter_none. intros [k2 v2] H2 ?. simplify_eq/=.
    apply Hk'. apply list_elem_of_fmap. by exists (k, v2).
  - rewrite decide_False; [by apply IH|]. intros ->.
    apply Hk'. apply list_elem_of_fmap. by exists (k, v).
Qed.

Lemma filter_key_absent (ps : Obj) (k : string) :
  k ∉ ps.*1 → filter (λ kv, kv.1 = k) ps = [].
Proof.
  intros Hk. apply filter_none. intros [k2 v2] H2 ?. simplify_eq/=.
  apply Hk. apply list_elem_of_fmap. by exists (k, v2).
Qed.

Lemma prop_set_fresh (o : Obj) (k : string) (v : Value) :
  k ∉ o.*1 → prop_set o k v = o ++ [(k, v)].
Proof.
  induction o as [|[k' v'] o IH]; intros Hk; [done|].
  rewrite fmap_cons in Hk. apply not_elem_of_cons in Hk as [Hne Hk].
  cbn [prop_set app]. rewrite decide_False by done. by rewrite IH.
Qed.

Lemma foldl_prop_set_NoDup (l o : Obj) :
  NoDup (o.*1 ++ l.*1) →
  foldl (λ o kv, prop_set o kv.1 kv.2) o l = o ++ l.
Proof.
  revert o. induction l as [|[k v] l IH]; intros o Hnd.
  - by rewrite app_nil_r.
  - cbn [foldl fst snd].
    rewrite fmap_cons in Hnd.
    rewrite prop_set_fresh.
    + rewrite IH; [by rewrite <- app_assoc|].
      rewrite fmap_app, <- app_assoc. done.
    + apply NoDup_app in Hnd as (_ & Hd & _). intros Ho.
      apply (Hd _ Ho). by left.
Qed.

(** The props kept for the element are the wrapper's own, in order. *)
Lemma render_fold_elementProps (ecp : gset string) (ps : Obj)
    (acc : gmap string Attr * Obj) :
  (foldl (render_entry ecp) acc ps).2
  = foldl (λ o kv, prop_set o kv.1 kv.2) acc.2
      (filter (λ kv, kv.1 ≠ "__forwardedRef" ∧ kv.1 ∈ ecp) ps).
Proof.
  revert acc. induction ps as [|kv ps IH]; intros acc; [done|].
  cbn [foldl]. rewrite IH, filter_cons. unfold render_entry.
  destruct (decide (kv.1 = "__forwardedRef")) as [Hf|Hf],
    (decide (kv.1 ∈ ecp)) as [He|He],
    (decide (kv.1 ≠ "__forwardedRef" ∧ kv.1 ∈ ecp)) as [Hb|Hb];
    try done; exfalso; tauto.
Qed.

(** The name under which React gets a prop. *)
Lemma render_fold_attrs (ecp : gset string) (ps : Obj)
    (acc : gmap string Attr * Obj) (t : string) :
  (foldl (render_entry ecp) acc ps).1 !! t
  = match list.last (filter (λ kv, kv.1 ≠ "__forwardedRef" ∧ (kv.1 ∉ ecp)
                              ∧ (if decide (kv.1 = "className")
                                 then "class" else kv.1) = t) ps) with
    | Some kv => Some (UserAttr kv.2)
    | None => acc.1 !! t
    end.
Proof.
  induction ps as [|kv ps IH] using rev_ind; [done|].
  rewrite foldl_app, filter_app. cbn [foldl].
  rewrite filter_cons, filter_nil. unfold render_entry at 1.
  set (name := if decide (kv.1 = "className") then "class" else kv.1).
  destruct (decide (kv.1 ≠ "__forwardedRef" ∧ (kv.1 ∉ ecp) ∧ name = t))
    as [(Hf & He & Ht)|Hno].
  - rewrite decide_False, decide_False by done.
    rewrite last_snoc. cbn [fst]. by rewrite <- Ht, lookup_insert_eq.
  - rewrite app_nil_r.
    destruct (decide (kv.1 = "__forwardedRef")) as [Hf|Hf]; [done|].
    destruct (decide (kv.1 ∈ ecp)) as [He|He]; [done|].
    cbn [fst]. rewrite lookup_insert_ne; [done|]. tauto.
Qed.

(** X12.  [render] sends every prop one way, by its name alone: a name the
    wrapper handles goes to [_elementProps] (in the order of the props) and
    not to React, any other name goes to React with its value and not to
    [_elementProps]; [__forwardedRef] goes nowhere; and React is given the
    wrapper's own [ref]. *)
Theorem render_splits_props (tagName : string) (ecp : gset string)
    (c : Component) :
  NoDup (props c).*1 →
  let r := render tagName ecp c in
  _elementProps r.1
  = filter (λ kv, kv.1 ≠ "__forwardedRef" ∧ kv.1 ∈ ecp) (props c)
  ∧ (∀ k v, (k, v) ∈ props c → k ∉ ecp → k ≠ "__forwardedRef" →
            k ≠ "className" → k ≠ "class" →
            el_props r.2 !! k = Some (UserAttr v))
  ∧ (∀ k, k ∈ ecp → k ≠ "class" → k ≠ "ref" → el_props r.2 !! k = None)
  ∧ el_props r.2 !! "__forwardedRef" = None
  ∧ ("ref" ∉ (props c).*1 → el_props r.2 !! "ref" = RefAttr <$> _ref r.1).
Proof.
  intros Hnd r. subst r. unfold render.
  cbn [fst snd _elementProps el_props _ref].
  split; [|split; [|split; [|split]]].
  - rewrite render_fold_elementProps. cbn [snd].
    rewrite foldl_prop_set_NoDup; [done|]. cbn [fmap list_fmap app].
    eapply sublist_NoDup; [exact Hnd|apply fmap_sublist, sublist_filter].
  - intros k v Hin Hecp Hf Hcn Hc. rewrite render_fold_attrs.
    rewrite (filter_ext_in _ (λ kv, kv.1 = k)).
    + by rewrite (filter_key_NoDup _ _ _ Hnd Hin).
    + intros [k' v'] _. cbn [fst].
      destruct (decide (k' = "className")); naive_solver.
  - intros k Hecp Hc Hr. rewrite render_fold_attrs.
    rewrite filter_none.
    + cbn [list.last fst]. by rewrite lookup_singleton_ne.
    + intros [k' v'] _. cbn [fst].
      destruct (decide (k' = "className")); naive_solver.
  - rewrite render_fold_attrs.
    rewrite filter_none.
    + cbn [list.last fst]. by rewrite lookup_singleton_ne.
    + intros [k' v'] _. cbn [fst].
      destruct (decide (k' = "className")); naive_solver.
  - intros Href. rewrite render_fold_attrs.
    rewrite filter_none.
    + cbn [list.last fst]. by rewrite lookup_singleton_eq.
    + intros [k' v'] Hin. cbn [fst].
      destruct (decide (k' = "className")) as [->|]; [naive_solver|].
      intros (_ & _ & ->). apply Href.
      apply list_elem_of_fmap. by exists ("ref", v').
Qed.

(** X13.  React is never given a [className]: a [className] prop that the
    wrapper does not handle itself reaches React as [class], with its value
    (when the props have no [class] of their own, which would compete for
    the name). *)
Theorem className_becomes_class (tagName : string) (ecp : gset string)
    (c : Component) (v : Value) :
  NoDup (props c).*1 →
  ("className", v) ∈ props c →
  "className" ∉ ecp →
  "class" ∉ (props c).*1 →
  let r := render tagName ecp c in
  el_props r.2 !! "className" = None
  ∧ el_props r.2 !! "class" = Some (UserAttr v)
  ∧ "className" ∉ (_elementProps r.1).*1.
Proof.
  intros Hnd Hin Hecp Hclass r. subst r. unfold render.
  cbn [fst snd _elementProps el_props].
  split; [|split].
  - rewrite render_fold_attrs.
    rewrite filter_none.
    + cbn [list.last fst]. by rewrite lookup_singleton_ne.
    + intros [k' v'] _. cbn [fst].
      destruct (decide (k' = "className")); naive_solver.
  - rewrite render_fold_attrs.
    rewrite (filter_ext_in _ (λ kv, kv.1 = "className")).
    + by rewrite (filter_key_NoDup _ _ _ Hnd Hin).
    + intros [k' v'] Hin'. cbn [fst].
      destruct (decide (k' = "className")) as [->|Hne]; [naive_solver|].
      split; [|naive_solver]. intros (_ & _ & ->). exfalso. apply Hclass.
      apply list_elem_of_fmap. by exists ("class", v').
  - rewrite render_fold_elementProps. cbn [snd].
    rewrite foldl_prop_set_NoDup.
    + cbn [app]. intros [[k' v'] [Hk Hf]]%list_elem_of_fmap.
      apply list_elem_of_filter in Hf as [[_ Hf] _]. cbn in *. by subst.
    + cbn [fmap list_fmap app].
      eapply sublist_NoDup; [exact Hnd|apply fmap_sublist, sublist_filter].
Qed.

(** ** Element properties and listeners after [_updateElement] *)

Lemma setProperty_in_step (node : nat) (name : string) (value old : Value)
    (events : option (gmap string string)) (p : Page) :
  in_step p → in_step (setProperty node name value old events p).
Proof.
  intros Hp. unfold setProperty.
  destruct (event_of events name) as [event|]; [|exact Hp].
  destruct (decide (value ≠ old)); [|done]. by apply addOrUpdate_in_step.
Qed.

Lemma dispatch_setProperty (node : nat) (name : string) (value old : Value)
    (events : option (gmap string string)) (p : Page) (node' : nat)
    (event' : string) :
  in_step p →
  dispatch (setProperty node name value old events p) node' event'
  = if decide (node = node' ∧ event_of events name = Some event'
               ∧ value ≠ old)
    then (if decide (value = undefined) then [] else [value])
    else dispatch p node' event'.
Proof.
  intros Hp. unfold setProperty.
  destruct (event_of events name) as [event|].
  - destruct (decide (node = node' ∧ Some event = Some event' ∧ value ≠ old))
      as [(-> & [= ->] & Hv)|Hno].
    + rewrite (decide_True (P := value ≠ old)) by done.
      rewrite dispatch_addOrUpdate by done.
      by rewrite (decide_True (P := node' = node' ∧ event' = event')).
    + destruct (decide (value ≠ old)) as [Hv|Hv]; [|done].
      rewrite dispatch_addOrUpdate by done.
      rewrite (decide_False (P := node = node' ∧ event = event')); [done|].
      intros [-> ->]. by apply Hno.
  - destruct (decide (node = node' ∧ None = Some event' ∧ value ≠ old))
      as [(_ & ? & _)|Hno]; done.
Qed.

Lemma property_addOrUpdate (node : nat) (event : string) (listener : Value)
    (p : Page) (node' : nat) (name' : string) :
  property (addOrUpdateEventListener node event listener p) node' name'
  = property p node' name'.
Proof.
  unfold addOrUpdateEventListener, property.
  by destruct (decide (listener ≠ undefined)),
    (default ∅ (listenedEvents p !! node) !! event).
Qed.

Lemma property_setProperty (node : nat) (name : string) (value old : Value)
    (events : option (gmap string string)) (p : Page) (node' : nat)
    (name' : string) :
  property (setProperty node name value old events p) node' name'
  = if decide (node = node' ∧ name = name' ∧ event_of events name = None)
    then Some value
    else property p node' name'.
Proof.
  unfold setProperty.
  destruct (event_of events name) as [event|].
  - destruct (decide (node = node' ∧ name = name' ∧ Some event = None))
      as [(_ & _ & ?)|_]; [done|].
    destruct (decide (value ≠ old)); [|done]. apply property_addOrUpdate.
  - unfold property. cbn [elementProperties].
    destruct (decide (node = node' ∧ name = name' ∧ None = None))
      as [(<- & <- & _)|Hno].
    + rewrite lookup_insert_eq. cbn [mbind option_bind].
      by rewrite lookup_insert_eq.
    + destruct (decide (node = node')) as [<-|Hn].
      * rewrite lookup_insert_eq. cbn [mbind option_bind].
        rewrite lookup_insert_ne by (intros <-; by apply Hno).
        by destruct (elementProperties p !! node).
      * by rewrite lookup_insert_ne.
Qed.

(** X14.  [_updateElement] does nothing while the component has no element.
    Once it has one, every prop kept for the element that is not an event
    prop is assigned to the element's property of the same name, with its
    current value, whether it changed or not; no other property of any
    element is touched, and an event prop is never assigned as a
    property. *)
Theorem updateElement_assigns_properties
    (events : option (gmap string string)) (oldProps : option Obj)
    (c : Component) (p : Page) (node : nat) (name : string) :
  let p' := _updateElement events oldProps c p in
  match _element c with
  | None => p' = p
  | Some element =>
      property p' node name
      = if decide (node = element ∧ name ∈ (_elementProps c).*1
                   ∧ event_of events name = None)
        then Some (prop_get (props c) name)
        else property p node name
  end.
Proof.
  intros p'. subst p'. unfold _updateElement.
  destruct (_element c) as [element|]; [|done].
  induction (_elementProps c) as [|kv l IH] using rev_ind.
  - cbn [foldl fmap list_fmap].
    destruct (decide (node = element ∧ name ∈ [] ∧ event_of events name = None))
      as [(_ & H & _)|_]; [|done]. by apply elem_of_nil in H.
  - rewrite foldl_app. cbn [foldl]. rewrite property_setProperty, IH.
    rewrite fmap_app. cbn [fmap list_fmap].
    assert ((node = element ∧ name ∈ l.*1 ++ [kv.1]
             ∧ event_of events name = None)
            ↔ (element = node ∧ kv.1 = name ∧ event_of events kv.1 = None)
              ∨ (node = element ∧ name ∈ l.*1
                 ∧ event_of events name = None)) as Hiff.
    { rewrite elem_of_app, list_elem_of_singleton. naive_solver. }
    destruct (decide (element = node ∧ kv.1 = name
                      ∧ event_of events kv.1 = None)) as [HA|HA],
      (decide (node = element ∧ name ∈ l.*1
               ∧ event_of events name = None)) as [HB|HB],
      (decide (node = element ∧ name ∈ l.*1 ++ [kv.1]
               ∧ event_of events name = None)) as [HC|HC];
      try done; try (exfalso; tauto).
    all: by destruct HA as (_ & <- & _).
Qed.

Lemma updateElement_fold_in_step (element : nat)
    (events : option (gmap string string)) (oldProps : option Obj)
    (ps : Obj) (l : Obj) (p : Page) :
  in_step p →
  in_step (foldl (λ p kv,
                    setProperty element kv.1 (prop_get ps kv.1)
                      (old_value oldProps kv.1) events p) p l).
Proof.
  revert p. induction l as [|kv l IH]; intros p Hp; [done|].
  cbn [foldl]. apply IH. by apply setProperty_in_step.
Qed.

(** X15.  [_updateElement] keeps the listeners in step, and after it an
    event on the component's element reaches the value of the last prop
    (among those kept for the element) that names this event and whose value
    differs from the old one; nothing, if that value is [undefined]; and
    what it reached before, if there is no such prop.  So an event prop
    whose value did not change, and one that is no longer among the props,
    leave the listener in place; and other elements are not touched. *)
Theorem event_props_drive_listeners (events : option (gmap string string))
    (oldProps : option Obj) (c : Component) (p : Page) (element node : nat)
    (event : string) :
  in_step p →
  _element c = Some element →
  let p' := _updateElement events oldProps c p in
  in_step p'
  ∧ dispatch p' node event
    = match list.last (changed_listeners events oldProps c event) with
      | Some v =>
          if decide (node = element)
          then (if decide (v = undefined) then [] else [v])
          else dispatch p node event
      | None => dispatch p node event
      end.
Proof.
  intros Hp He p'. subst p'. unfold _updateElement, changed_listeners.
  rewrite He. split; [by apply updateElement_fold_in_step|].
  induction (_elementProps c) as [|kv l IH] using rev_ind; [done|].
  rewrite foldl_app, omap_app. cbn [foldl omap list_omap].
  rewrite dispatch_setProperty by (by apply updateElement_fold_in_step).
  rewrite IH.
  destruct (decide (event_of events kv.1 = Some event
                    ∧ prop_get (props c) kv.1 ≠ old_value oldProps kv.1))
    as [[Hev Hch]|Hno].
  - rewrite last_snoc.
    destruct (decide (node = element)) as [->|Hn].
    + by rewrite (decide_True (P := element = element
                                ∧ event_of events kv.1 = Some event
                                ∧ prop_get (props c) kv.1
                                  ≠ old_value oldProps kv.1)).
    + rewrite (decide_False (P := element = node
                                ∧ event_of events kv.1 = Some event
                                ∧ prop_get (props c) kv.1
                                  ≠ old_value oldProps kv.1))
        by (intros (? & _); congruence).
      by destruct (list.last _).
  - rewrite app_nil_r.
    rewrite (decide_False (P := element = node
                              ∧ event_of events kv.1 = Some event
                              ∧ prop_get (props c) kv.1
                                ≠ old_value oldProps kv.1)); [done|].
    intros (_ & ? & ?). by apply Hno.
Qed.

(** ** Refs *)

Lemma op_keeps_element (tagName : string) (ecp : gset string) (o : Op)
    (s : Component * Refs) (element : nat) :
  _element s.1 = Some element →
  _element (op tagName ecp o s).1 = Some element.
Proof.
  intros He. destruct o as [ps|value]; [done|]. cbn [op].
  destruct (_ref s.1) as [r|]; [|done].
  unfold call_ref. rewrite He.
  destruct (decide (wr_userRef r ≠ null)).
  - by destruct (setRef (wr_userRef r) value s.2).
  - done.
Qed.

(** X16.  The component keeps the first element its ref function is called
    with: while it has none, a call that does not throw stores the value it
    is given; once it has one, no render and no later call of the ref
    function, with [null] or with another element, changes it. *)
Theorem element_is_latched (tagName : string) (ecp : gset string)
    (ops : list Op) (s : Component * Refs) (r : WrapperRef)
    (value : option nat) (element : nat) :
  (_element s.1 = Some element →
   _element (run_ops tagName ecp ops s).1 = Some element)
  ∧ (_element s.1 = None →
     ∀ s', call_ref r value s.1 s.2 = Some s' → _element s'.1 = value).
Proof.
  split.
  - revert s. induction ops as [|o ops IH]; intros s He; [done|].
    cbn [run_ops foldl]. apply IH. by apply op_keeps_element.
  - intros He s'. unfold call_ref. rewrite He.
    destruct (decide (wr_userRef r ≠ null)).
    + destruct (setRef (wr_userRef r) value s.2); [|done].
      by intros [= <-].
    + by intros [= <-].
Qed.

(** X17.  The ref function handed to React after the first render closes
    over that render's [__forwardedRef].  Once React has called it, a render
    with the same [__forwardedRef] hands React the same function again, and
    a render with another one hands it a new function that closes over the
    new one. *)
Theorem ref_follows_the_forwarded_ref (tagName : string) (ecp : gset string)
    (p1 p2 : Obj) (value : option nat) (refs : Refs)
    (s1 : Component * Refs) :
  let c0 := (render tagName ecp (new_component p1)).1 in
  let r0 := {| wr_serial := 0;
               wr_userRef := prop_get p1 "__forwardedRef" |} in
  call_ref r0 value c0 refs = Some s1 →
  let c2 := (render tagName ecp (with_props p2 s1.1)).1 in
  _ref c0 = Some r0
  ∧ _ref c2
    = Some (if decide (prop_get p2 "__forwardedRef"
                       = prop_get p1 "__forwardedRef")
            then r0
            else {| wr_serial := 1;
                    wr_userRef := prop_get p2 "__forwardedRef" |}).
Proof.
  intros c0 r0 Hcall c2. split; [done|].
  unfold call_ref in Hcall.
  destruct (if decide (wr_userRef r0 ≠ null)
            then setRef (wr_userRef r0) value refs else Some refs)
    as [refs'|]; [|done].
  cbn [mbind option_bind] in Hcall. injection Hcall as <-.
  subst c2. unfold render, refreshed_ref.
  cbn [fst props _ref _userRef refs_made with_props].
  unfold c0, render, refreshed_ref, new_component.
  cbn [fst props _ref _userRef refs_made with_props wr_userRef r0].
  fold r0.
  destruct (decide (prop_get p2 "__forwardedRef"
                    = prop_get p1 "__forwardedRef")) as [Heq|Hne].
  - case_decide as H; [exfalso; by apply H|done].
  - case_decide as H; [done|]. exfalso. by apply Hne.
Qed.

(** X18.  When React calls the ref function of a render whose
    [__forwardedRef] is a function, that function is called once with the
    same value; when it is a ref object, its [current] becomes that value;
    when it is [null], nothing is forwarded.  In each case the call
    succeeds. *)
Theorem wrapper_forwards_to_the_user_ref (tagName : string)
    (ecp : gset string) (c : Component) (value : option nat) (refs : Refs)
    (id : nat) :
  let userRef := prop_get (props c) "__forwardedRef" in
  let c1 := (render tagName ecp c).1 in
  ∃ r, _ref c1 = Some r
       ∧ (_ref c = None ∨ _userRef c ≠ userRef → wr_userRef r = userRef)
       ∧ (wr_userRef r = Function id →
          ∃ c2, call_ref r value c1 refs
                = Some (c2, {| current := current refs;
                               ref_calls := ref_calls refs ++ [(id, value)] |}))
       ∧ (wr_userRef r = Data (JsObject id) →
          ∃ c2, call_ref r value c1 refs
                = Some (c2, {| current := <[id := value]> (current refs);
                               ref_calls := ref_calls refs |}))
       ∧ (wr_userRef r = null →
          ∃ c2, call_ref r value c1 refs = Some (c2, refs)).
Proof.
  intros userRef c1. exists (refreshed_ref userRef c).
  split; [done|]. split; [|split; [|split]].
  - unfold refreshed_ref. intros [Hn|Hu].
    + by rewrite Hn.
    + destruct (_ref c); [|done]. by rewrite decide_True.
  - intros Hr. unfold call_ref. rewrite Hr.
    rewrite decide_True by done. cbn. by eexists.
  - intros Hr. unfold call_ref. rewrite Hr.
    rewrite decide_True by done. cbn. by eexists.
  - intros Hr. unfold call_ref. rewrite Hr.
    rewrite decide_False by (intros H; by apply H). cbn. by eexists.
Qed.

(** ** The wrapper's properties at sample inputs *)

(** Decide a closed decidable proposition by evaluation. *)
Ltac by_evaluation := apply (bool_decide_unpack _); vm_compute; exact I.

(** X9: [f1] is listening for [a] on element 1 and is replaced by [f2]. *)
Lemma one_listener_per_event_witness :
  let p := listen_all [(1%nat, "a", f1)] empty_page in
  let p' := addOrUpdateEventListener 1 "a" f2 p in
  eventListeners p' = eventListeners p
  ∧ listenedEvents p' = listenedEvents p
  ∧ ∃ h, handler_of p 1 "a" = Some h
         ∧ handlerObjects p' = <[h := f2]> (handlerObjects p).
Proof.
  intros p p'.
  refine (proj2 (proj2 (one_listener_per_event [(1%nat, "a", f1)] 1 "a" f2))
            _ _).
  - by_evaluation.
  - by_evaluation.
Defined.

(** X11: a prototype with [label], [ref], [title] and [style]. *)
Lemma warnings_are_about_ref_witness :
  let warnings :=
    (elementClassProps "my-el" html1 events1
       ["label"; "ref"; "title"; "style"]).2 in
  warnings
  = warning "my-el"
      <$> filter (λ p, (p ∉ html1) ∧ p ∈ reservedReactProperties)
            ["label"; "ref"; "title"; "style"]
  ∧ ∀ m, m ∈ warnings → m = warning "my-el" "ref".
Proof.
  apply (warnings_are_about_ref "my-el" html1 events1
           ["label"; "ref"; "title"; "style"]).
  by_evaluation.
Defined.

(** X12: the first render with [props1]. *)
Lemma render_splits_props_witness :
  _elementProps (render "my-el" ecp1 (new_component props1)).1
  = filter (λ kv, kv.1 ≠ "__forwardedRef" ∧ kv.1 ∈ ecp1)
      (props (new_component props1)).
Proof.
  refine (proj1 (render_splits_props "my-el" ecp1 (new_component props1) _)).
  by_evaluation.
Defined.

(** X13: [className: 'big'] in [props1]. *)
Lemma className_becomes_class_witness :
  let r := render "my-el" ecp1 (new_component props1) in
  el_props r.2 !! "className" = None
  ∧ el_props r.2 !! "class" = Some (UserAttr (Data (JsString "big")))
  ∧ "className" ∉ (_elementProps r.1).*1.
Proof.
  apply (className_becomes_class "my-el" ecp1 (new_component props1)
           (Data (JsString "big"))); by_evaluation.
Defined.

(** X15: [componentDidMount] for [mounted1] on a page without listeners. *)
Lemma event_props_drive_listeners_witness :
  let p' := _updateElement events1 None mounted1 empty_page in
  in_step p'
  ∧ dispatch p' 5 "activate"
    = match list.last (changed_listeners events1 None mounted1 "activate")
      with
      | Some v =>
          if decide (5%nat = 5%nat)
          then (if decide (v = undefined) then [] else [v])
          else dispatch empty_page 5 "activate"
      | None => dispatch empty_page 5 "activate"
      end.
Proof.
  apply (event_props_drive_listeners events1 None mounted1 empty_page
           5 5 "activate").
  - exact empty_page_in_step.
  - reflexivity.
Defined.

(** X16: the element 5 survives a detach, a render and another element. *)
Lemma element_is_latched_witness :
  _element (run_ops "my-el" ecp1
              [RefCall None; Render props2; RefCall (Some 6%nat)]
              (mounted1, no_refs)).1
  = Some 5%nat.
Proof.
  refine (proj1 (element_is_latched "my-el" ecp1
                   [RefCall None; Render props2; RefCall (Some 6%nat)]
                   (mounted1, no_refs)
                   {| wr_serial := 0; wr_userRef := null |} None 5) _).
  reflexivity.
Defined.

(** X17: rendered with [props_fn], called, then rendered with
    [props_obj]. *)
Lemma ref_follows_the_forwarded_ref_witness :
  let c0 := (render "my-el" ecp1 (new_component props_fn)).1 in
  let r0 := {| wr_serial := 0;
               wr_userRef := prop_get props_fn "__forwardedRef" |} in
  let c2 := (render "my-el" ecp1 (with_props props_obj called_fn.1)).1 in
  _ref c0 = Some r0
  ∧ _ref c2
    = Some (if decide (prop_get props_obj "__forwardedRef"
                       = prop_get props_fn "__forwardedRef")
            then r0
            else {| wr_serial := 1;
                    wr_userRef := prop_get props_obj "__forwardedRef" |}).
Proof.
  apply (ref_follows_the_forwarded_ref "my-el" ecp1 props_fn props_obj
           (Some 5%nat) no_refs called_fn).
  vm_compute. reflexivity.
Defined.

(** X18: the ref function of a render with [props_fn] is called with the
    element 5. *)
Lemma wrapper_forwards_to_the_user_ref_witness :
  ∃ r c2,
    _ref (render "my-el" ecp1 (new_component props_fn)).1 = Some r
    ∧ call_ref r (Some 5%nat)
        (render "my-el" ecp1 (new_component props_fn)).1 no_refs
      = Some (c2, {| current := current no_refs;
                     ref_calls := ref_calls no_refs
                                  ++ [(1%nat, Some 5%nat)] |}).
Proof.
  destruct (wrapper_forwards_to_the_user_ref "my-el" ecp1
              (new_component props_fn) (Some 5%nat) no_refs 1)
    as (r & Hr & Hu & Hf & _).
  destruct (Hf (Hu (or_introl eq_refl))) as [c2 Hc].
  exists r, c2. split; [exact Hr | exact Hc].
Defined.

End CreateComponentFacts.
